(** * mmp-to-MusicXML: a shallow embedding of the conversion script

    The script [mmp-to-musicXML.py] turns an LMMS project (piano-roll note
    events measured in ticks, 192 ticks per 4/4 measure) into a MusicXML
    part-wise score.  This development embeds the script's functions and
    its top-level loops, and states the properties of the duration tables,
    the rest decomposition, the length table, the measure tagging and the
    layout of parts.

    Conventions of the embedding:
    - Python integers are [Z].  [int(a / b)] on two integers (true
      division, then truncation toward zero) is [Z.quot]; [a % b] is
      [Z.modulo]; [math.ceil(a / b)] is the integer ceiling.  The script
      takes these quotients through a double; the double gives the
      integer written here as long as the dividend is below 2^53 in
      magnitude ([EXACT_LIMIT]), and the statements that name such a
      quotient are made for that range.
    - A dictionary is a [gmap]; an [OrderedDict] that is iterated is an
      association list in insertion order; a set is a [gset].
    - A failing subscript ([KeyError]) is [None] in the option monad.
    - An [ElementTree] element is a value of [Element]; a reference to a
      child kept in a variable ([currMeasure]) is the child's index.
    - A parsed note is the record of its integer attributes [key], [pos]
      and [len] (the script reads them with [int(note.attrib[...])]). *)

From Stdlib Require Import Ascii.
From stdpp Require Import gmap strings list fin_maps pretty sorting.

Open Scope Z_scope.

(** ** Python arithmetic and conversions *)

(** [int(a / b)]: the quotient truncated toward zero.  The script
    computes [a / b] as a double; for [a] below 2^53 in magnitude and the
    divisors of the script (3, 6, 12, 24, 48 and 192) the double is within
    less than [1 / b] of the quotient and the truncation is exact.  From a
    quotient of 2^46 on, the double quotient by 192 can reach the next
    integer. *)
Definition int_div (a b : Z) : Z := a `quot` b.

(** [math.ceil(a / b)]: the least integer that is not below the quotient,
    with the same proviso. *)
Definition ceil_div (a b : Z) : Z := - ((- a) `div` b).

Definition str (z : Z) : string := pretty z.

(** [sorted(d, reverse=True)] over integer keys. *)
Definition sorted_reverse (l : list Z) : list Z :=
  merge_sort Z.ge l.

(** ** Element trees *)

#[local] Set Warnings "-register-all".

Inductive Element : Type :=
  Elem (tag : string) (attrib : list (string * string))
       (text : option string) (children : list Element).

Definition etag (e : Element) : string :=
  match e with Elem t _ _ _ => t end.
Definition eattrib (e : Element) : list (string * string) :=
  match e with Elem _ a _ _ => a end.
Definition etext (e : Element) : option string :=
  match e with Elem _ _ x _ => x end.
Definition echildren (e : Element) : list Element :=
  match e with Elem _ _ _ c => c end.

(** [parent.append(child)] *)
Definition append_child (child : Element) (parent : Element) : Element :=
  match parent with Elem t a x c => Elem t a x (c ++ [child]) end.

(** [parent.append(child)] for each element of [children], in order. *)
Definition append_children (children : list Element) (parent : Element)
    : Element :=
  foldl (λ p c, append_child c p) parent children.

(** [e.attrib[k]] *)
Fixpoint attrib_get (k : string) (a : list (string * string)) : option string :=
  match a with
  | [] => None
  | (k', v) :: a' => if decide (k' = k) then Some v else attrib_get k a'
  end.

(** [e.find(t)]: the first child with tag [t]. *)
Definition efind (t : string) (e : Element) : option Element :=
  find (λ c, bool_decide (etag c = t)) (echildren e).

(** ** Constants *)

Definition LMMS_MEASURE_LENGTH : Z := 192.
Definition NUM_DIVISIONS : string := "8".

Definition INSTRUMENTS : gset string :=
  list_to_set ["piano"; "bass"; "vibes"; "orchestra"; "violin"; "cello";
    "tuba"; "trombone"; "french horn"; "horn"; "trumpet"; "flute"; "oboe";
    "clarinet"; "bassoon"; "street bass"; "guitar"; "str"; "marc str";
    "pizz"; "harp"; "piccolo"].

Definition BASS_INSTRUMENTS : gset string :=
  list_to_set ["bass"; "cello"; "double bass"; "trombone"; "tuba";
    "bassoon"; "street bass"].

Definition NOTES : gmap Z string :=
  list_to_map [(0, "C"); (1, "C#"); (2, "D"); (3, "D#"); (4, "E"); (5, "F");
    (6, "F#"); (7, "G"); (8, "G#"); (9, "A"); (10, "A#"); (11, "B")].

Definition NOTE_TYPE : gmap string Z :=
  list_to_map [("whole", 192); ("half", 96); ("quarter", 48); ("eighth", 24);
    ("16th", 12); ("32nd", 6); ("64th", 3)].

Definition NOTE_LENGTHS : gmap Z string :=
  list_to_map [(192, "whole"); (168, "half"); (144, "half"); (96, "half");
    (72, "quarter"); (48, "quarter"); (36, "eighth"); (24, "eighth");
    (12, "16th"); (6, "32nd"); (3, "64th")].

(** Each clef is the pair of its [sign] and its [line]. *)
Definition CLEF_TYPE : gmap string (string * string) :=
  list_to_map [("treble", ("G", "2")); ("bass", ("F", "4"))].

(** ** Duration model *)

(** The loop returns at the first key, in descending order, that does not
    exceed [length]; when there is none, [closestLength] is still [None]
    and the entry of 3 is returned. *)
Definition findClosestNoteType (length : Z) : option string :=
  match find (λ noteLength, noteLength <=? length)
             (sorted_reverse (map_to_list NOTE_LENGTHS).*1) with
  | Some noteLength => NOTE_LENGTHS !! noteLength
  | None => NOTE_LENGTHS !! 3
  end.

(** ** Rests *)

(** The [note] element that [addRest] appends to [parentNode]. *)
Definition addRest (type : string) : Element :=
  let dur :=
    if decide (type = "32nd") then "1"
    else if decide (type = "16th") then "2"
    else if decide (type = "eighth") then "4"
    else if decide (type = "quarter") then "8"
    else if decide (type = "half") then "16"
    else "" in
  Elem "note" [] None
    [Elem "rest" [] None [];
     Elem "duration" [] (Some dur) [];
     Elem "type" [] (Some type) []].

(** The [OrderedDict] that [getRests] returns, in insertion order. *)
Definition getRests (initialDistance : Z) : list (string * Z) :=
  let numWholeRests := int_div initialDistance LMMS_MEASURE_LENGTH in
  let remSize := initialDistance - numWholeRests * LMMS_MEASURE_LENGTH in
  let numQuarterRests := int_div remSize 48 in
  let remSize := remSize - numQuarterRests * 48 in
  let numEighthRests := int_div remSize 24 in
  let remSize := remSize - numEighthRests * 24 in
  let num16thRests := int_div remSize 12 in
  let remSize := remSize - num16thRests * 12 in
  let num32ndRests := int_div remSize 6 in
  let remSize := remSize - num32ndRests * 6 in
  let num64thRests := int_div remSize 3 in
  [("64th", num64thRests); ("32nd", num32ndRests); ("16th", num16thRests);
   ("eighth", numEighthRests); ("quarter", numQuarterRests);
   ("whole", numWholeRests)].

(** [for rest in restsToAdd: for l in range(0, restsToAdd[rest]):
    addRest(currMeasure, rest)]: the elements appended, in order. *)
Definition applyRests (restsToAdd : list (string * Z)) : list Element :=
  flat_map (λ r, replicate (Z.to_nat r.2) (addRest r.1)) restsToAdd.

(** Ticks that a decomposition stands for, through [NOTE_TYPE]. *)
Fixpoint restTicks (rests : list (string * Z)) : option Z :=
  match rests with
  | [] => Some 0
  | (type, count) :: rests' =>
      t ← NOTE_TYPE !! type;
      s ← restTicks rests';
      Some (t * count + s)
  end.

(** ** Notes *)

Record Note : Type := mkNote { note_key : Z; note_pos : Z; note_len : Z }.

(** [NOTE_TYPE[findClosestNoteType(lengthTable[position])]]: the length of
    the standard note type that the effective length rounds down to. *)
Definition correctedLength (lengthTable : gmap Z Z) (position : Z) : option Z :=
  l ← lengthTable !! position;
  type ← findClosestNoteType l;
  NOTE_TYPE !! type.

(** The [note] element that [addNote] appends to [parentNode]. *)
Definition addNote (note : Note) (isChord : bool)
    (lengthTable : option (gmap Z Z)) : option Element :=
  pitch ← NOTES !! (note_key note `mod` 12);
  let position := note_pos note in
  let newChord := if isChord then [Elem "chord" [] None []] else [] in
  step ← String.get 0 pitch;
  let newStep := Elem "step" [] (Some (String step EmptyString)) [] in
  let newAlter :=
    if bool_decide (String.get 1 pitch = Some "#"%char)
    then [Elem "alter" [] (Some "1") []] else [] in
  let octave := int_div (note_key note) 12 in
  let newOctave := Elem "octave" [] (Some (str octave)) [] in
  let newPitch := Elem "pitch" [] None ([newStep] ++ newAlter ++ [newOctave]) in
  noteLength ←
    match lengthTable with
    | Some lengthTable => correctedLength lengthTable position
    | None => Some (note_len note)
    end;
  let newDuration := Elem "duration" [] (Some (str (int_div noteLength 6))) [] in
  type ← findClosestNoteType noteLength;
  let newType := Elem "type" [] (Some type) [] in
  Some (Elem "note" [] None (newChord ++ [newPitch; newDuration; newType])).

(** ** Measures *)

Definition createMeasure (measureCounter : Z) : Element :=
  Elem "measure" [("number", str measureCounter)] None [].

Definition createFirstMeasure (measureCounter : Z) (clefType : string)
    (isRest : bool) : option Element :=
  clef ← CLEF_TYPE !! clefType;
  let divisions := Elem "divisions" [] (Some NUM_DIVISIONS) [] in
  let key := Elem "key" [] None [Elem "fifths" [] (Some "0") []] in
  let time := Elem "time" [] None
    [Elem "beats" [] (Some "4") []; Elem "beat-type" [] (Some "4") []] in
  let newClef := Elem "clef" [] None
    [Elem "sign" [] (Some clef.1) []; Elem "line" [] (Some clef.2) []] in
  let newMeasureAttributes :=
    Elem "attributes" [] None [divisions; key; time; newClef] in
  let newNote :=
    if isRest then
      [Elem "note" [] None
         [Elem "rest" [("measure", "yes")] None [];
          Elem "duration" [] (Some "32") []]]
    else [] in
  Some (append_children (newMeasureAttributes :: newNote)
          (createMeasure measureCounter)).

Definition addRestMeasure (measureCounter : Z) : Element :=
  Elem "measure" [("number", str measureCounter)] None
    [Elem "note" [] None
       [Elem "rest" [("measure", "yes")] None [];
        Elem "duration" [] (Some "32") []]].

Definition newMeasureCheck (currLength : Z) : bool :=
  bool_decide (currLength `mod` LMMS_MEASURE_LENGTH = 0).

Definition addNewMeasure (measureNum : Z) : Element :=
  Elem "measure" [("number", str measureNum)] None [].

(** ** The length table *)

(** One pass of the loop of [createLengthTable] at index [i]: [note] and
    [measure] are [notes[i]]; [next] is [notes[i+1]], which exists exactly
    when [i < len(notes)-1]. *)
Definition lengthTable_step (note : Note) (measure : Z)
    (next : option (Note * Z)) (lengthTable : gmap Z Z) : gmap Z Z :=
  let p := note_pos note in
  let l := note_len note in
  if bool_decide (is_Some (lengthTable !! p)) then
    let lengthTable :=
      if bool_decide (l < lengthTable !!! p) then <[p := l]> lengthTable
      else lengthTable in
    match next with
    | Some (nextNote, _) =>
        if bool_decide (l + p > note_pos nextNote)
           && bool_decide (p ≠ note_pos nextNote) then
          let nextNotePos := note_pos nextNote in
          if bool_decide (nextNotePos - p < lengthTable !!! p)
          then <[p := nextNotePos - p]> lengthTable
          else lengthTable
        else lengthTable
    | None => lengthTable
    end
  else
    let currMeasurePos := (measure - 1) * LMMS_MEASURE_LENGTH in
    let nextMeasurePos := currMeasurePos + LMMS_MEASURE_LENGTH in
    let currNoteDistance := p + l in
    let l :=
      if bool_decide (currNoteDistance > nextMeasurePos)
      then nextMeasurePos - p else l in
    let l :=
      match next with
      | Some (nextNote, _) =>
          let prevNotePos := note_pos nextNote in
          if bool_decide (l + p > prevNotePos) && bool_decide (p ≠ prevNotePos)
          then note_pos nextNote - p else l
      | None => l
      end in
    <[p := l]> lengthTable.

(** [for i in range(0, len(notes))]: the index walks the list, and the
    suffix after [notes[i]] starts with [notes[i+1]]. *)
Fixpoint lengthTable_loop (notes : list (Note * Z)) (lengthTable : gmap Z Z)
    : gmap Z Z :=
  match notes with
  | [] => lengthTable
  | (note, measure) :: rest =>
      lengthTable_loop rest (lengthTable_step note measure (head rest) lengthTable)
  end.

Definition createLengthTable (notes : list (Note * Z)) : gmap Z Z :=
  lengthTable_loop notes ∅.

(** ** The project file *)

Record Pattern : Type := mkPattern { pattern_pos : Z; pattern_notes : list Note }.

Record Track : Type := mkTrack { track_name : string; track_patterns : list Pattern }.

(** ** Measure tagging *)

(** The body of [for n in chunk]: rewrites the note's position to the
    absolute one and advances the running [measureNum]. *)
Definition tagNote (chunkPos : Z) (measureNum : Z) (n : Note) : Z * (Note * Z) :=
  let notePos := note_pos n in
  let newPos := chunkPos + notePos in
  let n := mkNote (note_key n) newPos (note_len n) in
  let measureNum :=
    if bool_decide (newPos >= measureNum * LMMS_MEASURE_LENGTH) then
      if bool_decide (newPos < (measureNum + 1) * LMMS_MEASURE_LENGTH)
      then measureNum + 1
      else ceil_div newPos LMMS_MEASURE_LENGTH + 1
    else measureNum in
  (measureNum, (n, measureNum)).

Fixpoint tagChunk (chunkPos : Z) (measureNum : Z) (chunk : list Note)
    : list (Note * Z) :=
  match chunk with
  | [] => []
  | n :: chunk' =>
      let r := tagNote chunkPos measureNum n in
      r.2 :: tagChunk chunkPos r.1 chunk'
  end.

(** [for i in range(0, len(patternChunks))]: every chunk restarts
    [measureNum] from its own position. *)
Definition flattenChunks (patternChunks : list Pattern) : list (Note * Z) :=
  flat_map (λ c,
      let chunkPos := pattern_pos c in
      let measureNum := int_div chunkPos LMMS_MEASURE_LENGTH + 1 in
      tagChunk chunkPos measureNum (pattern_notes c))
    patternChunks.

(** [sorted(patternNotes, key=lambda p : int(p[0].attrib["pos"]))]: the
    stable ascending arrangement.  An element is put in front of the
    elements of equal position that follow it in the input. *)
Fixpoint insert_by_pos (x : Note * Z) (l : list (Note * Z)) : list (Note * Z) :=
  match l with
  | [] => [x]
  | y :: l' =>
      if bool_decide (note_pos x.1 ≤ note_pos y.1) then x :: l
      else y :: insert_by_pos x l'
  end.

Definition sorted_by_pos (l : list (Note * Z)) : list (Note * Z) :=
  foldr insert_by_pos [] l.

Definition patternNotes (patternChunks : list Pattern) : list (Note * Z) :=
  sorted_by_pos (flattenChunks patternChunks).

(** ** Layout of one part *)

(** The variables of the loop over the notes of one part.  [measures] is
    the list of children of [currentPart]; [currMeasure] refers to one of
    them by its index. *)
Record PartState : Type := mkPartState {
  measures : list Element;
  currMeasure : nat;
  lastMeasureNum : Z;
  positionsSeen : gset Z;
  partMeasure : Z
}.

(** [ET.SubElement(currMeasure, ...)] for each element of [es]. *)
Definition toCurrMeasure (es : list Element) (st : PartState) : PartState :=
  mkPartState
    (alter (append_children es) (currMeasure st) (measures st))
    (currMeasure st) (lastMeasureNum st) (positionsSeen st) (partMeasure st).

(** [range(a, b)] *)
Definition range (a b : Z) : list Z := seqZ a (b - a).

(** The rests that pad the measure after the note at [position]. *)
Definition padRests (positionLengths : gmap Z Z) (position measureNum : Z)
    : option (list Element) :=
  c ← correctedLength positionLengths position;
  Some (applyRests (getRests (measureNum * LMMS_MEASURE_LENGTH - (position + c)))).

(** One pass of [for k in range(0, len(notes))]: [prev] is [notes[k-1]]
    (present exactly when [k > 0]), [next] is [notes[k+1]] (present exactly
    when [k < len(notes) - 1]).  The loop looks up [pitch] and does not use
    it. *)
Definition layout_step (positionLengths : gmap Z Z)
    (prev : option (Note * Z)) (cur : Note * Z) (next : option (Note * Z))
    (st : PartState) : option PartState :=
  let note := cur.1 in
  let measureNum := cur.2 in
  let position := note_pos note in
  pitch ← NOTES !! (note_key note `mod` 12);
  let lastOfMeasure :=
    match next with
    | Some (_, nextMeasure) => bool_decide (nextMeasure > measureNum)
    | None => true
    end in
  st ←
    (if bool_decide (lastMeasureNum st = measureNum) then
       st ←
         (if bool_decide (position ∈ positionsSeen st) then
            e ← addNote note true (Some positionLengths);
            Some (toCurrMeasure [e] st)
          else
            gap ←
              match prev with
              | Some (prevNote, _) =>
                  let prevNotePos := note_pos prevNote in
                  c ← correctedLength positionLengths prevNotePos;
                  Some (position - (prevNotePos + c))
              | None =>
                  Some (position - (measureNum - 1) * LMMS_MEASURE_LENGTH)
              end;
            let st := toCurrMeasure (applyRests (getRests gap)) st in
            let st := mkPartState (measures st) (currMeasure st)
                        (lastMeasureNum st) ({[position]} ∪ positionsSeen st)
                        (partMeasure st) in
            e ← addNote note false (Some positionLengths);
            Some (toCurrMeasure [e] st));
       if lastOfMeasure then
         pad ← padRests positionLengths position measureNum;
         Some (toCurrMeasure pad st)
       else Some st
     else
       match prev with
       | Some (_, prevMeasure) =>
           let numWholeRests := measureNum - lastMeasureNum st - 1 in
           let restMeasures :=
             (λ i, addRestMeasure (prevMeasure + i + 1)) <$> range 0 numWholeRests in
           let children := measures st ++ restMeasures ++ [addNewMeasure measureNum] in
           let st := mkPartState children (length children - 1)%nat
                       (lastMeasureNum st) (positionsSeen st) (partMeasure st) in
           st ←
             (if bool_decide (position ∈ positionsSeen st) then
                e ← addNote note true (Some positionLengths);
                Some (toCurrMeasure [e] st)
              else
                let restsToAdd :=
                  getRests (position - (measureNum - 1) * LMMS_MEASURE_LENGTH) in
                let st := toCurrMeasure (applyRests restsToAdd) st in
                let st := mkPartState (measures st) (currMeasure st)
                            (lastMeasureNum st) ({[position]} ∪ positionsSeen st)
                            (partMeasure st) in
                e ← addNote note false (Some positionLengths);
                Some (toCurrMeasure [e] st));
           if lastOfMeasure then
             pad ← padRests positionLengths position measureNum;
             Some (toCurrMeasure pad st)
           else Some st
       | None => Some st
       end);
  Some (mkPartState (measures st) (currMeasure st) measureNum
          (positionsSeen st) measureNum).

Fixpoint layout_loop (positionLengths : gmap Z Z) (prev : option (Note * Z))
    (notes : list (Note * Z)) (st : PartState) : option PartState :=
  match notes with
  | [] => Some st
  | cur :: rest =>
      st ← layout_step positionLengths prev cur (head rest) st;
      layout_loop positionLengths (Some cur) rest st
  end.

(** The measures in front of the first note, and the measure it opens. *)
Definition firstMeasures (name : string) (firstNoteMeasureNum : Z)
    : option (list Element) :=
  if bool_decide (firstNoteMeasureNum = 1) then
    m ← (if bool_decide (name ∈ BASS_INSTRUMENTS)
         then createFirstMeasure firstNoteMeasureNum "bass" false
         else createFirstMeasure firstNoteMeasureNum "treble" false);
    Some [m]
  else
    let numWholeRests := firstNoteMeasureNum - 1 in
    rests ← mapM (λ i,
        if bool_decide (i = 0) then
          if bool_decide (name ∈ BASS_INSTRUMENTS)
          then createFirstMeasure (i + 1) "bass" true
          else createFirstMeasure (i + 1) "treble" true
        else Some (addRestMeasure (i + 1)))
      (range 0 numWholeRests);
    Some (rests ++ [addNewMeasure firstNoteMeasureNum]).

(** The body of the track loop for a track with notes: the children of
    its [part] element and the final [partMeasures[currentPart]]. *)
Definition layoutPart (name : string) (notes : list (Note * Z))
    : option (list Element * Z) :=
  let positionLengths := createLengthTable notes in
  first ← head notes;
  let firstNoteMeasureNum := first.2 in
  children ← firstMeasures name firstNoteMeasureNum;
  let lastMeasureNum := firstNoteMeasureNum in
  st ← layout_loop positionLengths None notes
         (mkPartState children (length children - 1)%nat lastMeasureNum ∅ 0);
  Some (measures st, partMeasure st).

(** ** The whole score *)

(** The variables of the script after the header: the children of
    [part-list], the [part] children of [score-partwise],
    [partMeasures] (keyed by a part, that is by its index among the
    parts), [emptyInstruments] and [instrumentCounter]. *)
Record Score : Type := mkScore {
  partList : list Element;
  parts : list Element;
  partMeasures : gmap nat Z;
  emptyInstruments : list string;
  instrumentCounter : Z
}.

Definition partId (instrumentCounter : Z) : string :=
  "P" +:+ str instrumentCounter.

(** First loop over the tracks: the declarations in [part-list]. *)
Fixpoint declareParts (tracks : list Track) (instrumentCounter : Z)
    : list Element :=
  match tracks with
  | [] => []
  | el :: tracks' =>
      let name := track_name el in
      if bool_decide (name ∈ INSTRUMENTS) then
        Elem "score-part" [("id", partId instrumentCounter)] None
          [Elem "part-name" [] (Some name) []]
        :: declareParts tracks' (instrumentCounter + 1)
      else declareParts tracks' instrumentCounter
  end.

(** Second loop over the tracks, one pass. *)
Definition convertTrack (el : Track) (sc : Score) : option Score :=
  let name := track_name el in
  if bool_decide (name ∈ INSTRUMENTS) then
    let currentPart := length (parts sc) in
    let id := partId (instrumentCounter sc) in
    let notes := patternNotes (track_patterns el) in
    if bool_decide (length notes = 0%nat) then
      Some (mkScore (partList sc)
              (parts sc ++ [Elem "part" [("id", id)] None []])
              (partMeasures sc)
              (emptyInstruments sc ++ [id])
              (instrumentCounter sc))
    else
      r ← layoutPart name notes;
      Some (mkScore (partList sc)
              (parts sc ++ [Elem "part" [("id", id)] None r.1])
              (<[currentPart := r.2]> (partMeasures sc))
              (emptyInstruments sc)
              (instrumentCounter sc + 1))
  else Some sc.

Fixpoint convertTracks (tracks : list Track) (sc : Score) : option Score :=
  match tracks with
  | [] => Some sc
  | el :: tracks' => sc ← convertTrack el sc; convertTracks tracks' sc
  end.

(** [for part in partMeasures: if partMeasures[part] > highestNumMeasures:
    highestNumMeasures = partMeasures[part]], starting from 0. *)
Definition highestNumMeasures (partMeasures : gmap nat Z) : Z :=
  map_fold (λ _ m highest, if bool_decide (m > highest) then m else highest)
    0 partMeasures.

(** [for part in partMeasures: if partMeasures[part] < highestNumMeasures:
    for i in range(partMeasures[part]+1, highestNumMeasures+1):
    addRestMeasure(part, i)], part by part. *)
Definition padPart (partMeasures : gmap nat Z) (highest : Z)
    (i : nat) (part : Element) : Element :=
  match partMeasures !! i with
  | Some m =>
      if bool_decide (m < highest) then
        append_children (addRestMeasure <$> range (m + 1) (highest + 1)) part
      else part
  | None => part
  end.

Definition padParts (sc : Score) : Score :=
  mkScore (partList sc)
    (imap (padPart (partMeasures sc) (highestNumMeasures (partMeasures sc)))
       (parts sc))
    (partMeasures sc) (emptyInstruments sc) (instrumentCounter sc).

(** [part.attrib['id'] == partID] *)
Definition hasId (partID : string) (part : Element) : bool :=
  bool_decide (attrib_get "id" (eattrib part) = Some partID).

(** The body of [for partID in emptyInstruments]: every [part] and every
    [score-part] that carries the identifier is removed. *)
Definition removeId (sc : Score) (partID : string) : Score :=
  mkScore (List.filter (λ p, negb (hasId partID p)) (partList sc))
    (List.filter (λ p, negb (hasId partID p)) (parts sc))
    (partMeasures sc) (emptyInstruments sc) (instrumentCounter sc).

Definition removeEmpty (sc : Score) : Score :=
  foldl removeId sc (emptyInstruments sc).

(** The state when the layout of every track is complete. *)
Definition laidOut (tracks : list Track) : option Score :=
  convertTracks tracks (mkScore (declareParts tracks 1) [] ∅ [] 1).

(** The state when the tree is written out. *)
Definition convert (tracks : list Track) : option Score :=
  sc ← laidOut tracks;
  Some (removeEmpty (padParts sc)).

(** The [score-partwise] tree. *)
Definition scorePartwise (sc : Score) : Element :=
  Elem "score-partwise" [] None
    ([Elem "movement-title" [] (Some "title of piece goes here") [];
      Elem "part-list" [] None (partList sc)] ++ parts sc).

(** * Notions used in the statements *)

(** The name that [findClosestNoteType] returns, by intervals. *)
Definition closestName (length : Z) : string :=
  if bool_decide (192 ≤ length) then "whole"
  else if bool_decide (96 ≤ length) then "half"
  else if bool_decide (48 ≤ length) then "quarter"
  else if bool_decide (24 ≤ length) then "eighth"
  else if bool_decide (12 ≤ length) then "16th"
  else if bool_decide (6 ≤ length) then "32nd"
  else "64th".

(** The text of the [duration] child of a rest. *)
Definition restDuration (type : string) : option string :=
  efind "duration" (addRest type) ≫= etext.

(** The positions of a list of tagged notes, in order. *)
Definition positions (notes : list (Note * Z)) : list Z :=
  (λ x, note_pos x.1) <$> notes.

(** The first note of the list at position [p]: the note at which the
    table records [p]. *)
Definition firstAt (p : Z) (notes : list (Note * Z)) : option (Note * Z) :=
  find (λ x, bool_decide (note_pos x.1 = p)) notes.

(** The value that one pass of [createLengthTable] leaves at the position
    of its note: [cur] is the entry before the pass. *)
Definition stepValue (note : Note) (measure : Z) (next : option (Note * Z))
    (cur : option Z) : Z :=
  let p := note_pos note in
  let base :=
    match cur with
    | Some c => Z.min c (note_len note)
    | None => Z.min (note_len note) (measure * LMMS_MEASURE_LENGTH - p)
    end in
  match next with
  | Some (nextNote, _) =>
      if bool_decide (p ≠ note_pos nextNote)
      then Z.min base (note_pos nextNote - p) else base
  | None => base
  end.

(** [ascending lo l]: [l] is in non-decreasing order and starts at or
    after [lo]. *)
Fixpoint ascending (lo : Z) (l : list Z) : Prop :=
  match l with
  | [] => True
  | x :: l' => lo ≤ x ∧ ascending x l'
  end.

(** The absolute positions of a project's chunks, each chunk followed by
    its notes, in document order. *)
Definition timeline (patternChunks : list Pattern) : list Z :=
  flat_map (λ c,
      pattern_pos c :: ((λ n, pattern_pos c + note_pos n) <$> pattern_notes c))
    patternChunks.



(** The running measure number [m] is at most one measure ahead of the
    last position [p]. *)
Definition notAhead (p m : Z) : Prop := LMMS_MEASURE_LENGTH * (m - 2) < p.

(** The element that [addNote] builds, from the values it computes. *)
Definition noteElement (isChord : bool) (pitch : string) (step : ascii)
    (octave noteLength : Z) (type : string) : Element :=
  Elem "note" [] None
    ((if isChord then [Elem "chord" [] None []] else [])
     ++ [Elem "pitch" [] None
           ([Elem "step" [] (Some (String step EmptyString)) []]
            ++ (if bool_decide (String.get 1 pitch = Some "#"%char)
                then [Elem "alter" [] (Some "1") []] else [])
            ++ [Elem "octave" [] (Some (str octave)) []]);
         Elem "duration" [] (Some (str (int_div noteLength 6))) [];
         Elem "type" [] (Some type) []]).

(** A [note] element with a pitch, as opposed to a rest. *)
Definition isPitched (e : Element) : bool :=
  bool_decide (etag e = "note") && bool_decide (is_Some (efind "pitch" e)).

(** A pitched note that continues a chord. *)
Definition isChordNote (e : Element) : bool :=
  bool_decide (is_Some (efind "chord" e)).

Definition durationText (e : Element) : option string :=
  efind "duration" e ≫= etext.

Definition typeText (e : Element) : option string :=
  efind "type" e ≫= etext.

(** The pitched notes of a part, in document order. *)
Definition pitchedNotes (measures : list Element) : list Element :=
  flat_map (λ m, List.filter isPitched (echildren m)) measures.

Definition measureNumber (m : Element) : option string :=
  attrib_get "number" (eattrib m).



(** [int(text)] for a text of decimal digits. *)
Definition digitValue (c : ascii) : option Z :=
  let n := Z.of_N (N_of_ascii c) in
  if bool_decide (48 ≤ n ≤ 57) then Some (n - 48) else None.

Fixpoint digitsValue (s : string) (acc : Z) : option Z :=
  match s with
  | EmptyString => Some acc
  | String c s' => d ← digitValue c; digitsValue s' (10 * acc + d)
  end.

Definition int_of_text (s : string) : option Z :=
  match s with EmptyString => None | _ => digitsValue s 0 end.

Definition durationValue (e : Element) : option Z :=
  d ← efind "duration" e; t ← etext d; int_of_text t.

(** The sum of the durations of the notes and rests of a measure. *)
Definition measureDuration (m : Element) : option Z :=
  foldr (λ e (acc : option Z),
      if bool_decide (etag e = "note") then
        d ← durationValue e; s ← acc; Some (d + s)
      else acc)
    (Some 0) (echildren m).

Definition clefOf (name : string) : string :=
  if bool_decide (name ∈ BASS_INSTRUMENTS) then "bass" else "treble".



(** A project whose first recognised track has no notes. *)
Definition emptyThenPiano : list Track :=
  [mkTrack "violin" []; mkTrack "piano" [mkPattern 0 [mkNote 60 0 48]]].





(** ** Time, grid and identifiers *)

(** A child of a measure that advances its time: a rest, or a note that
    does not continue a chord. *)
Definition advances (e : Element) : bool :=
  bool_decide (etag e = "note") && negb (isChordNote e).

(** The written durations, in divisions, of the children that advance the
    time, added up; [None] when one of them is not a number. *)
Definition timeOf (es : list Element) : option Z :=
  foldr (λ e (acc : option Z),
      if advances e then d ← durationValue e; s ← acc; Some (d + s)
      else acc)
    (Some 0) es.


(** [steady p0 l]: the positions [l] do not go down from [p0], and none
    of them skips a whole measure unless it lands on a measure line. *)
Fixpoint steady (p0 : Z) (l : list Z) : Prop :=
  match l with
  | [] => True
  | p :: l' =>
      p0 ≤ p
      ∧ (p `div` LMMS_MEASURE_LENGTH ≤ p0 `div` LMMS_MEASURE_LENGTH + 1
         ∨ p `mod` LMMS_MEASURE_LENGTH = 0)
      ∧ steady p l'
  end.

(** Step and sharp of the pitch name that [NOTES] holds for a key. *)
Definition pitchName (k : Z) : option (option ascii * bool) :=
  (λ pitch, (String.get 0 pitch,
             bool_decide (String.get 1 pitch = Some "#"%char)))
    <$> NOTES !! k.







(** The [attributes] element of an instrument. *)
Definition attributesOf (name : string) : option Element :=
  clef ← CLEF_TYPE !! clefOf name;
  Some (Elem "attributes" [] None
          [Elem "divisions" [] (Some NUM_DIVISIONS) [];
           Elem "key" [] None [Elem "fifths" [] (Some "0") []];
           Elem "time" [] None
             [Elem "beats" [] (Some "4") []; Elem "beat-type" [] (Some "4") []];
           Elem "clef" [] None
             [Elem "sign" [] (Some clef.1) [];
              Elem "line" [] (Some clef.2) []]]).



(** A track that the script turns into a part. *)
Definition recognised (el : Track) : bool :=
  bool_decide (track_name el ∈ INSTRUMENTS).








(** ** The range of exact quotients *)

(** Every integer below [EXACT_LIMIT] in magnitude is a double, and the
    double quotient of such an integer by a divisor of the script lies on
    the same side of every integer as the quotient itself: in this range
    [int(a / b)] and [math.ceil(a / b)] are [int_div] and [ceil_div]. *)
Definition EXACT_LIMIT : Z := 2 ^ 53.

Definition exactRange (a : Z) : Prop := - EXACT_LIMIT < a < EXACT_LIMIT.

(** [a / b] on two integers, for a divisor above 0: the double nearest to
    the quotient, the even one of two that are equally near.  A double is
    the pair of an integer [m] of at most 53 bits and an exponent [e],
    for the number [m * 2 ^ e]; the exponent is chosen such that the
    quotient of the magnitudes, scaled by it, has 53 bits.  [None] is the
    [OverflowError] of a quotient beyond the doubles. *)
Definition true_div (a b : Z) : option (Z * Z) :=
  let n := Z.abs a in
  if bool_decide (n = 0) then Some (0, 0) else
  let scaled e := (n * 2 ^ Z.max 0 (- e), b * 2 ^ Z.max 0 e) in
  let e0 := Z.log2 n - Z.log2 b - 52 in
  let e :=
    if bool_decide ((scaled e0).1 `div` (scaled e0).2 < 2 ^ 52)
    then e0 - 1 else e0 in
  let q := (scaled e).1 `div` (scaled e).2 in
  let r := (scaled e).1 `mod` (scaled e).2 in
  let m :=
    if bool_decide ((scaled e).2 < 2 * r ∨ ((scaled e).2 = 2 * r ∧ Z.odd q))
    then q + 1 else q in
  if bool_decide (e < 0 ∨ m * 2 ^ e < 2 ^ 1024)
  then Some (Z.sgn a * m, e) else None.

(** [int(x)] on a double: truncation toward zero. *)
Definition int_of (x : Z * Z) : Z :=
  if bool_decide (0 ≤ x.2) then x.1 * 2 ^ x.2 else x.1 `quot` 2 ^ (- x.2).

(** [math.ceil(x)] on a double. *)
Definition ceil_of (x : Z * Z) : Z :=
  if bool_decide (0 ≤ x.2) then x.1 * 2 ^ x.2
  else - ((- x.1) `div` 2 ^ (- x.2)).


(** [int(a / b)] and [math.ceil(a / b)] as the script computes them. *)
Definition int_double (a b : Z) : option Z := int_of <$> true_div a b.

Definition ceil_double (a b : Z) : option Z := ceil_of <$> true_div a b.

(** [getRests] with its quotients taken through a double, as the script
    has them. *)
Definition getRestsDouble (initialDistance : Z) : option (list (string * Z)) :=
  numWholeRests ← int_double initialDistance LMMS_MEASURE_LENGTH;
  let remSize := initialDistance - numWholeRests * LMMS_MEASURE_LENGTH in
  numQuarterRests ← int_double remSize 48;
  let remSize := remSize - numQuarterRests * 48 in
  numEighthRests ← int_double remSize 24;
  let remSize := remSize - numEighthRests * 24 in
  num16thRests ← int_double remSize 12;
  let remSize := remSize - num16thRests * 12 in
  num32ndRests ← int_double remSize 6;
  let remSize := remSize - num32ndRests * 6 in
  num64thRests ← int_double remSize 3;
  Some [("64th", num64thRests); ("32nd", num32ndRests);
        ("16th", num16thRests); ("eighth", numEighthRests);
        ("quarter", numQuarterRests); ("whole", numWholeRests)].

(** The position of a chunk and the absolute positions of its notes lie
    in the exact range. *)
Definition chunkInRange (c : Pattern) : Prop :=
  Forall exactRange (timeline [c]).





(** A quarter rest, as the score holds it. *)
Definition quarterRest : Element :=
  Elem "note" [] None
    [Elem "rest" [] None [];
     Elem "duration" [] (Some "8") [];
     Elem "type" [] (Some "quarter") []].


(** * Properties *)

(** ** Duration model *)

Lemma NOTE_LENGTHS_keys :
  sorted_reverse (map_to_list NOTE_LENGTHS).*1
  = [192; 168; 144; 96; 72; 48; 36; 24; 12; 6; 3].
Proof. vm_compute. reflexivity. Qed.

Lemma NOTE_LENGTHS_dom k :
  is_Some (NOTE_LENGTHS !! k) →
  k ∈ [192; 168; 144; 96; 72; 48; 36; 24; 12; 6; 3].
Proof.
  intros [ty H]. apply elem_of_list_to_map_2 in H.
  apply (list_elem_of_fmap_2 fst) in H. exact H.
Qed.

Ltac split_leb length :=
  repeat match goal with
    | |- context [?a <=? length] => destruct (Z.leb_spec a length)
    end.

Ltac in_list H :=
  repeat (apply elem_of_cons in H as [->|H]); [..|by apply elem_of_nil in H].

Ltac not_in_list H :=
  repeat (apply elem_of_cons in H as [H|H]; [discriminate H|]);
  by apply elem_of_nil in H.

Lemma findClosestNoteType_eq length :
  findClosestNoteType length = Some (closestName length).
Proof.
  unfold findClosestNoteType, closestName. rewrite NOTE_LENGTHS_keys.
  cbn [find]. split_leb length; repeat case_bool_decide; try lia; reflexivity.
Qed.

(** C7. [findClosestNoteType] never fails; on the eleven lengths of
    [NOTE_LENGTHS] it returns the documented name; on any input of at
    least 3 it returns the name of the largest key that does not exceed
    the input; below 3 it returns "64th". *)
Theorem findClosestNoteType_nearest (length : Z) :
  findClosestNoteType <$> [192; 168; 144; 96; 72; 48; 36; 24; 12; 6; 3]
    = Some <$> ["whole"; "half"; "half"; "half"; "quarter"; "quarter";
                "eighth"; "eighth"; "16th"; "32nd"; "64th"]
  ∧ is_Some (findClosestNoteType length)
  ∧ (3 ≤ length →
     ∃ k, k ≤ length ∧ is_Some (NOTE_LENGTHS !! k)
          ∧ (∀ k', is_Some (NOTE_LENGTHS !! k') → k' ≤ length → k' ≤ k)
          ∧ findClosestNoteType length = NOTE_LENGTHS !! k)
  ∧ (length < 3 → findClosestNoteType length = Some "64th").
Proof.
  split; [reflexivity|]. split; [rewrite findClosestNoteType_eq; eauto|].
  split.
  - intros Hge. unfold findClosestNoteType. rewrite NOTE_LENGTHS_keys.
    cbn [find]. split_leb length; try lia;
      (eexists; split_and!;
        [eassumption | by eexists
        | intros k' Hk' ?; apply NOTE_LENGTHS_dom in Hk'; in_list Hk'; lia
        | reflexivity]).
  - intros Hlt. rewrite findClosestNoteType_eq. unfold closestName.
    repeat case_bool_decide; try lia; reflexivity.
Qed.

Lemma findClosestNoteType_nearest_witness :
  findClosestNoteType 100 = Some "half" ∧ findClosestNoteType 2 = Some "64th".
Proof.
  destruct (findClosestNoteType_nearest 100) as (_ & _ & H & _).
  destruct (findClosestNoteType_nearest 2) as (_ & _ & _ & H2).
  split; [|apply H2; lia].
  destruct (H ltac:(lia)) as (k & Hle & Hk & Hmax & ->).
  specialize (Hmax 96 ltac:(by eexists) ltac:(lia)).
  apply NOTE_LENGTHS_dom in Hk. in_list Hk; try lia. reflexivity.
Defined.

(** ** Rest decomposition *)

Lemma quot_step a b :
  0 ≤ a → 0 < b → 0 ≤ a - a `quot` b * b < b ∧ 0 ≤ a `quot` b.
Proof.
  intros Ha Hb. rewrite Z.quot_div_nonneg by lia.
  pose proof (Z.div_mod a b ltac:(lia)). pose proof (Z.mod_pos_bound a b Hb).
  split; [lia|]. apply Z.div_pos; lia.
Qed.

(** C5, in the range of exact quotients.  For a gap of at least 0 ticks
    and below 2^53, the counts of [getRests], turned back into ticks
    through [NOTE_TYPE] and added up, give the gap less a remainder [r]
    with [0 <= r < 3].  (From 192 * 2^46 ticks on, the double quotient of
    the script can count one whole rest too many.) *)
Theorem getRests_ticks (gapTicks : Z) :
  0 ≤ gapTicks < EXACT_LIMIT →
  ∃ r, 0 ≤ r < 3 ∧ restTicks (getRests gapTicks) = Some (gapTicks - r).
Proof.
  intros [Hg _]. unfold getRests, int_div, LMMS_MEASURE_LENGTH.
  set (w := gapTicks `quot` 192). set (r1 := gapTicks - w * 192).
  set (q := r1 `quot` 48). set (r2 := r1 - q * 48).
  set (e := r2 `quot` 24). set (r3 := r2 - e * 24).
  set (s := r3 `quot` 12). set (r4 := r3 - s * 12).
  set (t := r4 `quot` 6). set (r5 := r4 - t * 6).
  set (u := r5 `quot` 3).
  destruct (quot_step gapTicks 192) as [H1 _]; [lia..|]. fold w r1 in H1.
  destruct (quot_step r1 48) as [H2 _]; [lia..|]. fold q r2 in H2.
  destruct (quot_step r2 24) as [H3 _]; [lia..|]. fold e r3 in H3.
  destruct (quot_step r3 12) as [H4 _]; [lia..|]. fold s r4 in H4.
  destruct (quot_step r4 6) as [H5 _]; [lia..|]. fold t r5 in H5.
  destruct (quot_step r5 3) as [H6 _]; [lia..|]. fold u in H6.
  exists (r5 - u * 3). split; [lia|].
  change (restTicks _) with
    (Some (3 * u + (6 * t + (12 * s + (24 * e + (48 * q + (192 * w + 0))))))).
  f_equal. lia.
Qed.

Lemma getRests_ticks_witness :
  0 ≤ 191 < EXACT_LIMIT
  ∧ ∃ r, 0 ≤ r < 3 ∧ restTicks (getRests 191) = Some (191 - r).
Proof.
  assert (H : 0 ≤ 191 < EXACT_LIMIT) by (split; [lia|reflexivity]).
  split; [exact H | apply (getRests_ticks 191 H)].
Defined.



(** ** Rests without a duration *)

(** C10. [addRest] writes a number into the [duration] element for the
    types 32nd, 16th, eighth, quarter and half only; for any other type,
    and so for the 64th and whole rests that [getRests] does emit, the
    text is the empty string. *)
Theorem addRest_duration_text (type : string) :
  restDuration <$> ["32nd"; "16th"; "eighth"; "quarter"; "half"]
    = [Some "1"; Some "2"; Some "4"; Some "8"; Some "16"]
  ∧ (type ∉ ["32nd"; "16th"; "eighth"; "quarter"; "half"] →
     restDuration type = Some "")
  ∧ restDuration "64th" = Some "" ∧ restDuration "whole" = Some ""
  ∧ getRests 195 = [("64th", 1); ("32nd", 0); ("16th", 0); ("eighth", 0);
                    ("quarter", 0); ("whole", 1)]
  ∧ applyRests (getRests 195) = [addRest "64th"; addRest "whole"].
Proof.
  split_and!; try reflexivity.
  intros Hn. unfold restDuration, addRest.
  repeat case_decide; try reflexivity;
    exfalso; apply Hn; subst; rewrite !elem_of_cons; tauto.
Qed.

Lemma addRest_duration_text_witness :
  ("whole" ∉ ["32nd"; "16th"; "eighth"; "quarter"; "half"])
  ∧ restDuration "whole" = Some "".
Proof.
  assert (H : "whole" ∉ ["32nd"; "16th"; "eighth"; "quarter"; "half"]).
  { intros H. not_in_list H. }
  split; [exact H|].
  destruct (addRest_duration_text "whole") as (_ & Hw & _). exact (Hw H).
Defined.

(** ** The length table *)

Lemma lengthTable_step_eq note measure next (T : gmap Z Z) :
  lengthTable_step note measure next T
  = <[note_pos note := stepValue note measure next (T !! note_pos note)]> T.
Proof.
  unfold lengthTable_step, stepValue, LMMS_MEASURE_LENGTH.
  destruct (T !! note_pos note) as [c|] eqn:Hc.
  - rewrite bool_decide_eq_true_2 by eauto.
    rewrite (lookup_total_correct _ _ _ Hc).
    assert (Hid : ∀ v, v = c → T = <[note_pos note := v]> T).
    { intros v ->. symmetry. by apply insert_id. }
    case_bool_decide;
      rewrite ?lookup_total_insert_eq, ?(lookup_total_correct _ _ _ Hc);
      destruct next as [[nextNote ?]|];
      repeat (case_bool_decide; cbn [andb]);
      rewrite ?insert_insert_eq;
      try (f_equal; lia); try (apply Hid; lia); try lia.
  - rewrite bool_decide_eq_false_2 by (intros [? ?]; congruence).
    destruct next as [[nextNote ?]|];
      repeat (case_bool_decide; cbn [andb]); f_equal; lia.
Qed.

Lemma lengthTable_loop_other notes (T : gmap Z Z) p :
  p ∉ positions notes → lengthTable_loop notes T !! p = T !! p.
Proof.
  revert T. induction notes as [|[n m] notes IH]; intros T Hp; [done|].
  cbn [lengthTable_loop]. unfold positions in Hp. rewrite fmap_cons in Hp.
  apply not_elem_of_cons in Hp as [Hne Hp]. cbn in Hne.
  rewrite IH by done. rewrite lengthTable_step_eq.
  by rewrite lookup_insert_ne.
Qed.

Lemma lengthTable_loop_mono notes (T : gmap Z Z) p c :
  T !! p = Some c → ∃ v, lengthTable_loop notes T !! p = Some v ∧ v ≤ c.
Proof.
  revert T c. induction notes as [|[n m] notes IH]; intros T c Hc.
  { exists c. split; [done|lia]. }
  cbn [lengthTable_loop]. rewrite lengthTable_step_eq.
  destruct (decide (note_pos n = p)) as [<-|Hne].
  - edestruct IH as (v & Hv & Hle); [apply lookup_insert_eq|].
    exists v. split; [done|]. rewrite Hc in Hle.
    unfold stepValue in Hle.
    destruct (head notes) as [[? ?]|]; repeat case_bool_decide; lia.
  - apply IH. by rewrite lookup_insert_ne.
Qed.

Lemma lengthTable_loop_dom notes (T : gmap Z Z) p :
  is_Some (lengthTable_loop notes T !! p) → is_Some (T !! p) ∨ p ∈ positions notes.
Proof.
  intros Hs. destruct (decide (p ∈ positions notes)); [by right|left].
  by rewrite lengthTable_loop_other in Hs.
Qed.

(** The entry of a position does not exceed the raw length of any note
    at that position. *)
Lemma lengthTable_loop_raw notes (T : gmap Z Z) n m :
  (n, m) ∈ notes →
  ∃ v, lengthTable_loop notes T !! note_pos n = Some v ∧ v ≤ note_len n.
Proof.
  revert T. induction notes as [|[n' m'] notes IH]; intros T Hin.
  { by apply elem_of_nil in Hin. }
  cbn [lengthTable_loop]. rewrite lengthTable_step_eq.
  apply elem_of_cons in Hin as [Heq|Hin]; [|by apply IH].
  inversion Heq; subst n' m'.
  edestruct (lengthTable_loop_mono notes) as (v & Hv & Hle);
    [apply lookup_insert_eq|].
  exists v. split; [done|]. unfold stepValue in Hle.
  destruct (T !! note_pos n), (head notes) as [[? ?]|];
    repeat case_bool_decide; lia.
Qed.

(** The entry of a position stays within the measure of the note that
    records it. *)
Lemma lengthTable_loop_boundary notes (T : gmap Z Z) p n m :
  T !! p = None → firstAt p notes = Some (n, m) →
  ∃ v, lengthTable_loop notes T !! p = Some v ∧ p + v ≤ m * LMMS_MEASURE_LENGTH.
Proof.
  revert T. induction notes as [|[n' m'] notes IH]; intros T HT Hf; [done|].
  cbn [lengthTable_loop]. rewrite lengthTable_step_eq.
  unfold firstAt in Hf. cbn [find fst] in Hf. case_bool_decide as Hp.
  - inversion Hf; subst n' m' p.
    edestruct (lengthTable_loop_mono notes) as (v & Hv & Hle);
      [apply lookup_insert_eq|].
    exists v. split; [done|]. rewrite HT in Hle. unfold stepValue in Hle.
    destruct (head notes) as [[? ?]|]; repeat case_bool_decide; lia.
  - apply IH; [|done]. by rewrite lookup_insert_ne.
Qed.

(** The entry of a position ends no later than the next note, when that
    note is at another position. *)
Lemma lengthTable_loop_adjacent l1 x y l2 (T : gmap Z Z) :
  note_pos y.1 ≠ note_pos x.1 →
  ∃ v, lengthTable_loop (l1 ++ x :: y :: l2) T !! note_pos x.1 = Some v
       ∧ note_pos x.1 + v ≤ note_pos y.1.
Proof.
  revert T. induction l1 as [|[n' m'] l1 IH]; intros T Hne.
  - destruct x as [n m], y as [ny my]. cbn [app lengthTable_loop head fst] in *.
    rewrite !lengthTable_step_eq.
    edestruct (lengthTable_loop_mono l2) as (v & Hv & Hle).
    { rewrite lookup_insert_ne by done. apply lookup_insert_eq. }
    exists v. split; [done|]. unfold stepValue in Hle.
    rewrite bool_decide_eq_true_2 in Hle by done. lia.
  - cbn [app lengthTable_loop]. by apply IH.
Qed.

Lemma positions_cons x notes :
  positions (x :: notes) = note_pos x.1 :: positions notes.
Proof. reflexivity. Qed.

Lemma positions_app l1 l2 :
  positions (l1 ++ l2) = positions l1 ++ positions l2.
Proof. unfold positions. apply fmap_app. Qed.

Lemma elem_of_positions p notes :
  p ∈ positions notes ↔ ∃ n m, (n, m) ∈ notes ∧ note_pos n = p.
Proof.
  unfold positions. rewrite list_elem_of_fmap. split.
  - intros ([n m] & -> & Hin). eauto.
  - intros (n & m & Hin & <-). by exists (n, m).
Qed.

Lemma firstAt_Some p notes x :
  firstAt p notes = Some x → x ∈ notes ∧ note_pos x.1 = p.
Proof.
  unfold firstAt. intros H. apply find_some in H as [Hin Hp].
  apply list_elem_of_In in Hin. by apply bool_decide_eq_true in Hp.
Qed.

Lemma firstAt_is_Some p notes :
  p ∈ positions notes → is_Some (firstAt p notes).
Proof.
  induction notes as [|x notes IH]; intros Hp.
  { by apply elem_of_nil in Hp. }
  unfold firstAt. cbn [find]. case_bool_decide as Hx; [eauto|].
  rewrite positions_cons in Hp. apply elem_of_cons in Hp as [->|Hp]; [done|].
  by apply IH.
Qed.

(** In a list sorted by position, some note at [p1] is directly followed
    by a note at a later position that is not beyond [p2]. *)
Lemma sorted_next_position notes p1 p2 :
  StronglySorted Z.le (positions notes) →
  p1 ∈ positions notes → p2 ∈ positions notes → p1 < p2 →
  ∃ l1 x y l2, notes = l1 ++ x :: y :: l2
               ∧ note_pos x.1 = p1 ∧ p1 < note_pos y.1 ≤ p2.
Proof.
  induction notes as [|a notes IH]; intros Hs H1 H2 Hlt.
  { by apply elem_of_nil in H1. }
  rewrite positions_cons in *. apply StronglySorted_inv in Hs as [Hs Ha].
  rewrite Forall_forall in Ha.
  assert (Hrec : p1 ∈ positions notes → p2 ∈ positions notes →
                 ∃ l1 x y l2, a :: notes = l1 ++ x :: y :: l2
                   ∧ note_pos x.1 = p1 ∧ p1 < note_pos y.1 ≤ p2).
  { intros H1' H2'. destruct (IH Hs H1' H2' Hlt) as (l1 & x & y & l2 & -> & ?).
    by exists (a :: l1), x, y, l2. }
  apply elem_of_cons in H2 as [->|H2].
  { apply elem_of_cons in H1 as [->|H1]; [lia|].
    apply Ha in H1. lia. }
  apply elem_of_cons in H1 as [->|H1]; [|by apply Hrec].
  destruct notes as [|b notes]; [by apply elem_of_nil in H2|].
  destruct (decide (note_pos b.1 = note_pos a.1)) as [Hb|Hb].
  { apply Hrec; [|done]. rewrite positions_cons, Hb. by left. }
  exists [], a, b, notes. split; [done|]. split; [done|].
  pose proof (Ha (note_pos b.1)) as Hab. rewrite positions_cons in Hab.
  specialize (Hab ltac:(by left)).
  apply StronglySorted_inv in Hs as [_ Hb2]. rewrite Forall_forall in Hb2.
  rewrite positions_cons in H2. apply elem_of_cons in H2 as [->|H2]; [lia|].
  apply Hb2 in H2. lia.
Qed.

Lemma sorted_adjacent l1 x y l2 :
  StronglySorted Z.le (positions (l1 ++ x :: y :: l2)) →
  note_pos x.1 ≤ note_pos y.1.
Proof.
  rewrite positions_app, !positions_cons. intros Hs.
  apply StronglySorted_app_1_r, StronglySorted_inv in Hs as [_ Hx].
  rewrite Forall_forall in Hx. apply Hx. by left.
Qed.

(** In a list with non-decreasing measure tags, the note that records a
    position carries the least tag among the notes at that position. *)
Lemma firstAt_least_tag p notes x n m :
  StronglySorted Z.le notes.*2 →
  firstAt p notes = Some x → (n, m) ∈ notes → note_pos n = p → x.2 ≤ m.
Proof.
  induction notes as [|a notes IH]; intros Hs Hf Hin Hp; [done|].
  rewrite fmap_cons in Hs. apply StronglySorted_inv in Hs as [Hs Ha].
  unfold firstAt in Hf. cbn [find] in Hf. case_bool_decide as Hx.
  - inversion Hf; subst x. apply elem_of_cons in Hin as [Heq|Hin].
    { subst a. done. }
    rewrite Forall_forall in Ha. apply Ha.
    by apply (list_elem_of_fmap_2 snd) in Hin.
  - apply elem_of_cons in Hin as [Heq|Hin]; [by subst a|]. by apply IH.
Qed.

(** C1. For a list of tagged notes sorted by position, every entry
    [table[p]] of the length table ends no later than the end of the
    measure of the note that records [p] (of every note at [p] when the
    tags are non-decreasing), does not exceed the raw length of any note
    at [p], and ends no later than any later recorded position, hence the
    next one. *)
Theorem createLengthTable_invariant (notes : list (Note * Z)) :
  Sorted Z.le (positions notes) →
  ∀ p l, createLengthTable notes !! p = Some l →
    (∃ n m, firstAt p notes = Some (n, m) ∧ p + l ≤ m * LMMS_MEASURE_LENGTH)
    ∧ (Sorted Z.le notes.*2 →
       ∀ n m, (n, m) ∈ notes → note_pos n = p → p + l ≤ m * LMMS_MEASURE_LENGTH)
    ∧ (∀ n m, (n, m) ∈ notes → note_pos n = p → l ≤ note_len n)
    ∧ (∀ p2 l2, createLengthTable notes !! p2 = Some l2 → p < p2 → p + l ≤ p2).
Proof.
  intros Hs p l Hl. apply Sorted_StronglySorted in Hs; [|intros ???; lia].
  unfold createLengthTable in *.
  assert (Hp : p ∈ positions notes).
  { destruct (lengthTable_loop_dom notes ∅ p) as [[? H]|]; [eauto| |done].
    by rewrite lookup_empty in H. }
  destruct (firstAt_is_Some p notes Hp) as [[n m] Hf].
  destruct (lengthTable_loop_boundary notes ∅ p n m) as (v & Hv & Hb);
    [apply lookup_empty|done|].
  assert (v = l) as -> by congruence.
  split_and!.
  - by exists n, m.
  - intros Ht n' m' Hin' Hp'.
    apply Sorted_StronglySorted in Ht; [|intros ???; lia].
    pose proof (firstAt_least_tag p notes _ n' m' Ht Hf Hin' Hp') as Hle.
    cbn in Hle. unfold LMMS_MEASURE_LENGTH in *. lia.
  - intros n' m' Hin' <-.
    destruct (lengthTable_loop_raw notes ∅ n' m' Hin') as (v & Hv' & Hle).
    congruence.
  - intros p2 l2 Hl2 Hlt.
    assert (Hp2 : p2 ∈ positions notes).
    { destruct (lengthTable_loop_dom notes ∅ p2) as [[? H]|]; [eauto| |done].
      by rewrite lookup_empty in H. }
    destruct (sorted_next_position notes p p2 Hs Hp Hp2 Hlt)
      as (l1 & x & y & l2' & -> & Hx & Hy).
    destruct (lengthTable_loop_adjacent l1 x y l2' ∅) as (v & Hv' & Hle); [lia|].
    rewrite Hx in *. assert (v = l) as -> by congruence. lia.
Qed.

Lemma createLengthTable_invariant_witness :
  createLengthTable
    [(mkNote 79 372 48, 2); (mkNote 67 372 48, 2); (mkNote 77 384 48, 3)]
    !! 372 = Some 12
  ∧ 372 + 12 ≤ 384.
Proof.
  pose (notes := [(mkNote 79 372 48, 2); (mkNote 67 372 48, 2);
                  (mkNote 77 384 48, 3)]).
  assert (Hs : Sorted Z.le (positions notes)).
  { repeat constructor; cbn; lia. }
  assert (Hl : createLengthTable notes !! 372 = Some 12) by reflexivity.
  split; [exact Hl|].
  destruct (createLengthTable_invariant notes Hs 372 12 Hl) as (_ & _ & _ & H).
  apply (H 384 48); [reflexivity|lia].
Defined.

(** ** Sorting by position *)

Lemma ascending_Sorted lo l : ascending lo l ↔ Sorted Z.le (lo :: l).
Proof.
  revert lo. induction l as [|x l IH]; intros lo; cbn [ascending].
  - split; [repeat constructor|done].
  - rewrite IH. split.
    + intros [Hle Hs]. constructor; [done|by constructor].
    + intros Hs. apply Sorted_inv in Hs as [Hs Hd].
      by apply HdRel_inv in Hd.
Qed.

Lemma ascending_weaken lo lo' l : lo' ≤ lo → ascending lo l → ascending lo' l.
Proof.
  destruct l as [|x l]; [done|]. cbn. intros Hle [Hx Ha]. split; [lia|done].
Qed.

Lemma ascending_app_cont lo l1 l2 l2' :
  ascending lo (l1 ++ l2) →
  (∀ p, lo ≤ p → ascending p l2 → ascending p l2') →
  ascending lo (l1 ++ l2').
Proof.
  revert lo. induction l1 as [|x l1 IH]; intros lo Ha Hc; cbn [app] in *.
  - apply Hc; [lia|done].
  - destruct Ha as [Hle Ha]. split; [done|]. apply IH; [done|].
    intros p Hp. apply Hc. lia.
Qed.

Lemma ascending_Sorted_tail lo l : ascending lo l → Sorted Z.le l.
Proof.
  intros H. apply ascending_Sorted in H. by apply Sorted_inv in H as [? _].
Qed.

Lemma elem_of_insert_by_pos x y l :
  x ∈ insert_by_pos y l ↔ x = y ∨ x ∈ l.
Proof.
  induction l as [|z l IH]; cbn [insert_by_pos].
  - rewrite list_elem_of_singleton, elem_of_nil. tauto.
  - case_bool_decide; rewrite !elem_of_cons, ?IH; tauto.
Qed.

Lemma elem_of_sorted_by_pos x l : x ∈ sorted_by_pos l ↔ x ∈ l.
Proof.
  induction l as [|y l IH]; [done|]. unfold sorted_by_pos in *.
  cbn [foldr]. rewrite elem_of_insert_by_pos, IH, elem_of_cons. tauto.
Qed.

Lemma insert_by_pos_length x l : length (insert_by_pos x l) = S (length l).
Proof.
  induction l as [|y l IH]; [done|]. cbn [insert_by_pos].
  case_bool_decide; cbn [length]; congruence.
Qed.

Lemma sorted_by_pos_length l : length (sorted_by_pos l) = length l.
Proof.
  induction l as [|y l IH]; [done|]. unfold sorted_by_pos in *.
  cbn [foldr length]. by rewrite insert_by_pos_length, IH.
Qed.

Lemma insert_by_pos_sorted x l :
  Sorted Z.le (positions l) → Sorted Z.le (positions (insert_by_pos x l)).
Proof.
  induction l as [|y l IH]; intros Hs; cbn [insert_by_pos].
  - repeat constructor.
  - case_bool_decide as Hxy.
    + rewrite !positions_cons in *. constructor; [done|by constructor].
    + rewrite positions_cons in *. apply Sorted_inv in Hs as [Hs Hd].
      constructor; [by apply IH|].
      destruct l as [|z l]; cbn [insert_by_pos].
      * constructor. cbn. lia.
      * case_bool_decide; rewrite positions_cons; constructor; [lia|].
        rewrite positions_cons in Hd. by apply HdRel_inv in Hd.
Qed.

Lemma sorted_by_pos_sorted l : Sorted Z.le (positions (sorted_by_pos l)).
Proof.
  induction l as [|y l IH]; [constructor|].
  unfold sorted_by_pos in *. cbn [foldr]. by apply insert_by_pos_sorted.
Qed.

Lemma insert_by_pos_perm x l : insert_by_pos x l ≡ₚ x :: l.
Proof.
  induction l as [|y l IH]; [done|]. cbn [insert_by_pos].
  case_bool_decide; [done|]. rewrite IH. apply Permutation_swap.
Qed.

(** The sorted list is a rearrangement of the input. *)
Lemma sorted_by_pos_perm l : sorted_by_pos l ≡ₚ l.
Proof.
  induction l as [|y l IH]; [done|]. unfold sorted_by_pos in *.
  cbn [foldr]. by rewrite insert_by_pos_perm, IH.
Qed.

Lemma insert_by_pos_stable p x l :
  Sorted Z.le (positions l) →
  List.filter (λ y, bool_decide (note_pos y.1 = p)) (insert_by_pos x l)
  = List.filter (λ y, bool_decide (note_pos y.1 = p)) (x :: l).
Proof.
  induction l as [|y l IH]; intros Hs; [done|]. cbn [insert_by_pos].
  case_bool_decide as Hxy; [done|].
  rewrite positions_cons in Hs. apply Sorted_inv in Hs as [Hs _].
  cbn [List.filter]. rewrite (IH Hs). cbn [List.filter].
  repeat case_bool_decide; try done; lia.
Qed.

(** The sort is stable: notes at one position keep their input order. *)
Lemma sorted_by_pos_stable p l :
  List.filter (λ y, bool_decide (note_pos y.1 = p)) (sorted_by_pos l)
  = List.filter (λ y, bool_decide (note_pos y.1 = p)) l.
Proof.
  induction l as [|y l IH]; [done|]. unfold sorted_by_pos in *.
  cbn [foldr]. rewrite insert_by_pos_stable by apply sorted_by_pos_sorted.
  cbn [List.filter]. by rewrite IH.
Qed.

(** Sorting leaves a sorted list as it is. *)
Lemma sorted_by_pos_id l : Sorted Z.le (positions l) → sorted_by_pos l = l.
Proof.
  induction l as [|x l IH]; intros Hs; [done|].
  rewrite positions_cons in Hs. apply Sorted_inv in Hs as [Hs Hd].
  unfold sorted_by_pos in *. cbn [foldr]. rewrite IH by done.
  destruct l as [|y l]; [done|]. cbn [insert_by_pos].
  rewrite positions_cons in Hd. apply HdRel_inv in Hd.
  by rewrite bool_decide_eq_true_2.
Qed.

(** ** Measure tagging *)

Lemma ceil_div_bounds a :
  LMMS_MEASURE_LENGTH * (ceil_div a LMMS_MEASURE_LENGTH - 1) < a
  ≤ LMMS_MEASURE_LENGTH * ceil_div a LMMS_MEASURE_LENGTH.
Proof.
  unfold ceil_div, LMMS_MEASURE_LENGTH.
  pose proof (Z.div_mod (- a) 192 ltac:(lia)).
  pose proof (Z.mod_pos_bound (- a) 192 ltac:(lia)). lia.
Qed.

Lemma tagNote_spec c m0 n p0 :
  notAhead p0 m0 → p0 ≤ c + note_pos n →
  (tagNote c m0 n).2
    = (mkNote (note_key n) (c + note_pos n) (note_len n), (tagNote c m0 n).1)
  ∧ m0 ≤ (tagNote c m0 n).1
  ∧ notAhead (c + note_pos n) (tagNote c m0 n).1
  ∧ (∀ k, c + note_pos n = k * LMMS_MEASURE_LENGTH → (tagNote c m0 n).1 = k + 1).
Proof.
  unfold notAhead, tagNote. cbn [fst snd]. intros HI Hle.
  pose proof (ceil_div_bounds (c + note_pos n)) as Hc.
  unfold LMMS_MEASURE_LENGTH in *.
  split; [done|]. repeat case_bool_decide; split_and!; try lia;
    intros k Hk; lia.
Qed.

Lemma initial_notAhead c :
  0 ≤ c → notAhead c (int_div c LMMS_MEASURE_LENGTH + 1).
Proof.
  intros Hc. unfold notAhead, int_div, LMMS_MEASURE_LENGTH.
  rewrite Z.quot_div_nonneg by lia.
  pose proof (Z.div_mod c 192 ltac:(lia)).
  pose proof (Z.mod_pos_bound c 192 ltac:(lia)). lia.
Qed.

Lemma tagChunk_positions c m notes :
  positions (tagChunk c m notes) = (λ n, c + note_pos n) <$> notes.
Proof.
  revert m. induction notes as [|n notes IH]; intros m; [done|].
  cbn [tagChunk]. rewrite positions_cons, fmap_cons, IH. done.
Qed.

Lemma tagChunk_tags notes c p0 m0 tail tailtags :
  notAhead p0 m0 →
  ascending p0 (((λ n, c + note_pos n) <$> notes) ++ tail) →
  (∀ p m, p0 ≤ p → notAhead p m → ascending p tail → ascending m tailtags) →
  ascending m0 ((tagChunk c m0 notes).*2 ++ tailtags).
Proof.
  revert p0 m0. induction notes as [|n notes IH]; intros p0 m0 HI Ha Hc.
  - cbn. apply (Hc p0); [lia|done..].
  - rewrite fmap_cons in Ha. destruct Ha as [Hle Ha].
    destruct (tagNote_spec c m0 n p0 HI Hle) as (Hn & Hm & HI' & _).
    cbn [tagChunk]. rewrite fmap_cons. rewrite Hn at 1. cbn [snd app].
    split; [done|]. apply (IH (c + note_pos n)); [done..|].
    intros p m Hp. apply Hc. lia.
Qed.


Lemma flattenChunks_cons c chunks :
  flattenChunks (c :: chunks)
  = tagChunk (pattern_pos c) (int_div (pattern_pos c) LMMS_MEASURE_LENGTH + 1)
      (pattern_notes c) ++ flattenChunks chunks.
Proof. reflexivity. Qed.

Lemma timeline_cons c chunks :
  timeline (c :: chunks)
  = pattern_pos c :: ((λ n, pattern_pos c + note_pos n) <$> pattern_notes c)
    ++ timeline chunks.
Proof. reflexivity. Qed.

Lemma flattenChunks_tags chunks p0 m0 :
  0 ≤ p0 → notAhead p0 m0 → ascending p0 (timeline chunks) →
  Forall (λ c, (LMMS_MEASURE_LENGTH | pattern_pos c)) chunks →
  ascending m0 (flattenChunks chunks).*2.
Proof.
  revert p0 m0. induction chunks as [|c chunks IH]; intros p0 m0 H0 HI Ha Hal.
  { done. }
  apply Forall_cons in Hal as [[q Hq] Hal].
  rewrite timeline_cons in Ha. destruct Ha as [Hle Ha].
  rewrite flattenChunks_cons, fmap_app.
  pose proof (initial_notAhead (pattern_pos c) ltac:(lia)) as HI'.
  apply (ascending_weaken (int_div (pattern_pos c) LMMS_MEASURE_LENGTH + 1)).
  { unfold notAhead, int_div, LMMS_MEASURE_LENGTH in *.
    rewrite Hq, Z.quot_mul by lia. lia. }
  apply (tagChunk_tags _ _ (pattern_pos c) _ (timeline chunks)); [done..|].
  intros p m Hp HIp Hap. apply (IH p); [lia|done..].
Qed.

Lemma flattenChunks_positions chunks p0 :
  ascending p0 (timeline chunks) → ascending p0 (positions (flattenChunks chunks)).
Proof.
  revert p0. induction chunks as [|c chunks IH]; intros p0 Ha; [done|].
  rewrite timeline_cons in Ha. destruct Ha as [Hle Ha].
  rewrite flattenChunks_cons, positions_app, tagChunk_positions.
  apply (ascending_weaken (pattern_pos c)); [done|].
  apply (ascending_app_cont _ _ (timeline chunks)); [done|].
  intros p _. apply IH.
Qed.


Lemma tagChunk_exact notes c p0 m0 n m :
  0 ≤ p0 → m0 = p0 `div` LMMS_MEASURE_LENGTH + 1 →
  steady p0 ((λ n, c + note_pos n) <$> notes) →
  (n, m) ∈ tagChunk c m0 notes →
  m = note_pos n `div` LMMS_MEASURE_LENGTH + 1.
Proof.
  revert p0 m0. induction notes as [|n' notes IH]; intros p0 m0 H0 Hm0 Hs Hin.
  { by apply elem_of_nil in Hin. }
  rewrite fmap_cons in Hs. destruct Hs as (Hle & Hskip & Hs).
  assert (Hstep : (tagNote c m0 n').2
                  = (mkNote (note_key n') (c + note_pos n') (note_len n'),
                     (c + note_pos n') `div` LMMS_MEASURE_LENGTH + 1)
                  ∧ (tagNote c m0 n').1
                    = (c + note_pos n') `div` LMMS_MEASURE_LENGTH + 1).
  { unfold tagNote. cbn [fst snd].
    pose proof (ceil_div_bounds (c + note_pos n')) as Hc.
    pose proof (Z.div_mod (c + note_pos n') 192 ltac:(lia)) as Hdm.
    pose proof (Z.mod_pos_bound (c + note_pos n') 192 ltac:(lia)) as Hmb.
    pose proof (Z.div_mod p0 192 ltac:(lia)) as Hdm0.
    pose proof (Z.mod_pos_bound p0 192 ltac:(lia)) as Hmb0.
    unfold LMMS_MEASURE_LENGTH in *.
    assert (Heq : (if bool_decide (c + note_pos n' >= m0 * 192)
                   then if bool_decide (c + note_pos n' < (m0 + 1) * 192)
                        then m0 + 1
                        else ceil_div (c + note_pos n') 192 + 1
                   else m0) = (c + note_pos n') `div` 192 + 1).
    { repeat case_bool_decide; destruct Hskip; nia. }
    rewrite Heq. done. }
  destruct Hstep as [Hn Hm].
  cbn [tagChunk] in Hin. apply elem_of_cons in Hin as [Heq|Hin].
  - rewrite Hn in Heq. inversion Heq; subst. done.
  - apply (IH (c + note_pos n') (tagNote c m0 n').1); [lia|done..].
Qed.

Lemma elem_of_flattenChunks chunks x :
  x ∈ flattenChunks chunks ↔
  ∃ c, c ∈ chunks
       ∧ x ∈ tagChunk (pattern_pos c)
               (int_div (pattern_pos c) LMMS_MEASURE_LENGTH + 1)
               (pattern_notes c).
Proof.
  unfold flattenChunks. rewrite list_elem_of_In, in_flat_map. split.
  - intros (c & Hc & Hx). exists c. by rewrite !list_elem_of_In.
  - intros (c & Hc & Hx). exists c. by rewrite <- !list_elem_of_In.
Qed.













(** ** Notes and their elements *)

Lemma NOTES_lookup key :
  ∃ pitch step, NOTES !! (key `mod` 12) = Some pitch
                ∧ String.get 0 pitch = Some step.
Proof.
  pose proof (Z.mod_pos_bound key 12 ltac:(lia)) as H.
  assert (Hc : key `mod` 12 ∈ [0;1;2;3;4;5;6;7;8;9;10;11]).
  { rewrite !elem_of_cons. lia. }
  generalize dependent (key `mod` 12). intros k _ Hc.
  in_list Hc; do 2 eexists; split; reflexivity.
Qed.

Lemma NOTE_TYPE_closestName l :
  ∃ t, NOTE_TYPE !! closestName l = Some t ∧ closestName t = closestName l
       ∧ 3 ≤ t ∧ (3 ≤ l → t ≤ l).
Proof.
  unfold closestName. repeat case_bool_decide;
    (eexists; split; [vm_compute; reflexivity|]; split; [reflexivity|lia]).
Qed.

Section Layout.

(** The length table of the part that is laid out. *)
Context (table : gmap Z Z).

Lemma correctedLength_eq p l :
  table !! p = Some l → correctedLength table p = NOTE_TYPE !! closestName l.
Proof.
  intros Hl. unfold correctedLength. rewrite Hl. cbn [mbind option_bind].
  by rewrite findClosestNoteType_eq.
Qed.


(** [addNote] with a length table that holds the note's position. *)
Lemma addNote_eq note isChord l :
  table !! note_pos note = Some l →
  ∃ pitch step t,
    NOTES !! (note_key note `mod` 12) = Some pitch
    ∧ String.get 0 pitch = Some step
    ∧ NOTE_TYPE !! closestName l = Some t
    ∧ addNote note isChord (Some table)
      = Some (noteElement isChord pitch step (int_div (note_key note) 12) t
                (closestName l)).
Proof.
  intros Hl. destruct (NOTES_lookup (note_key note)) as (pitch & step & Hp & Hs).
  destruct (NOTE_TYPE_closestName l) as (t & Ht & Hc & _).
  exists pitch, step, t. split_and!; [done..|].
  unfold addNote. rewrite Hp. cbn [mbind option_bind]. rewrite Hs.
  cbn [mbind option_bind]. rewrite (correctedLength_eq _ _ Hl), Ht.
  cbn [mbind option_bind]. rewrite findClosestNoteType_eq, Hc. done.
Qed.






(** ** The state of the layout loop *)



Lemma pitchedNotes_app l1 l2 :
  pitchedNotes (l1 ++ l2) = pitchedNotes l1 ++ pitchedNotes l2.
Proof. unfold pitchedNotes. apply flat_map_app. Qed.



Lemma range_length a b : length (range a b) = Z.to_nat (b - a).
Proof. unfold range. apply length_seqZ. Qed.













End Layout.

Lemma createFirstMeasure_eq measureCounter clef isRest :
  clef = "bass" ∨ clef = "treble" →
  ∃ e, createFirstMeasure measureCounter clef isRest = Some e
       ∧ measureNumber e = Some (str measureCounter)
       ∧ pitchedNotes [e] = [].
Proof.
  intros [-> | ->]; destruct isRest; eexists; (split; [reflexivity|]);
    split; reflexivity.
Qed.

Lemma firstMeasures_spec name firstNoteMeasureNum :
  ∃ pre m, firstMeasures name firstNoteMeasureNum = Some (pre ++ [m])
           ∧ measureNumber m = Some (str firstNoteMeasureNum)
           ∧ pitchedNotes (pre ++ [m]) = []
           ∧ (1 ≤ firstNoteMeasureNum →
              length (pre ++ [m]) = Z.to_nat firstNoteMeasureNum).
Proof.
  unfold firstMeasures.
  assert (Hclef : ∀ mc isRest, ∃ e,
            (if bool_decide (name ∈ BASS_INSTRUMENTS)
             then createFirstMeasure mc "bass" isRest
             else createFirstMeasure mc "treble" isRest) = Some e
            ∧ measureNumber e = Some (str mc) ∧ pitchedNotes [e] = []).
  { intros mc isRest. case_bool_decide; apply createFirstMeasure_eq; auto. }
  destruct (decide (firstNoteMeasureNum = 1)) as [Hone|Hone].
  - rewrite (bool_decide_eq_true_2 _ Hone).
    destruct (Hclef firstNoteMeasureNum false) as (e & -> & Hn & Hp).
    exists [], e. split_and!; [done..|]. intros _. subst. done.
  - rewrite (bool_decide_eq_false_2 _ Hone). assert (Hrests : ∀ l : list Z, ∃ rests,
      mapM (λ i, if bool_decide (i = 0)
                 then if bool_decide (name ∈ BASS_INSTRUMENTS)
                      then createFirstMeasure (i + 1) "bass" true
                      else createFirstMeasure (i + 1) "treble" true
                 else Some (addRestMeasure (i + 1))) l = Some rests
      ∧ pitchedNotes rests = [] ∧ length rests = length l).
    { induction l as [|i l (rests & IHl & IHp & IHn)]; [by exists []|].
      cbn [mapM]. rewrite IHl. destruct (decide (i = 0)) as [Hi|Hi].
      - rewrite (bool_decide_eq_true_2 _ Hi).
        destruct (Hclef (i + 1) true) as (e & -> & _ & Hp).
        exists (e :: rests). split; [done|]. split; [|cbn; by rewrite IHn].
        change (e :: rests) with ([e] ++ rests).
        by rewrite pitchedNotes_app, Hp, IHp.
      - rewrite (bool_decide_eq_false_2 _ Hi).
        exists (addRestMeasure (i + 1) :: rests). split; [done|].
        split; [exact IHp|cbn; by rewrite IHn]. }
    destruct (Hrests (range 0 (firstNoteMeasureNum - 1)))
      as (rests & -> & Hp & Hn).
    exists rests, (addNewMeasure firstNoteMeasureNum). cbn [mbind option_bind].
    split; [done|]. split; [done|]. split; [by rewrite pitchedNotes_app, Hp|].
    intros Hge. rewrite length_app, Hn, range_length. cbn. lia.
Qed.



(** Every entry of the table is a raw length at its position, the
    distance to the end of the recording note's measure, or the distance
    to a directly following note at another position. *)
Lemma lengthTable_loop_attain notes (T : gmap Z Z) p v :
  lengthTable_loop notes T !! p = Some v →
  T !! p = Some v
  ∨ (∃ n m, (n, m) ∈ notes ∧ note_pos n = p ∧ v = note_len n)
  ∨ (T !! p = None
     ∧ ∃ n m, firstAt p notes = Some (n, m) ∧ v = m * LMMS_MEASURE_LENGTH - p)
  ∨ (∃ l1 x y l2, notes = l1 ++ x :: y :: l2 ∧ note_pos x.1 = p
                  ∧ note_pos y.1 ≠ p ∧ v = note_pos y.1 - p).
Proof.
  revert T. induction notes as [|[n m] notes IH]; intros T Hv; [by left|].
  cbn [lengthTable_loop] in Hv. rewrite lengthTable_step_eq in Hv.
  destruct (IH _ Hv) as [H1|[(n' & m' & Hin & Hp & Hl)|[[HN (n' & m' & Hf & Hl)]
    |(l1 & x & y & l2 & -> & Hx & Hy & Hl)]]].
  - destruct (decide (note_pos n = p)) as [Hp|Hp].
    + subst p. rewrite lookup_insert_eq in H1. inversion H1 as [Hsv]. clear H1.
      unfold stepValue.
      destruct (T !! note_pos n) as [c|] eqn:HT;
        destruct notes as [|[nn mn] l2]; cbn [head];
        repeat case_bool_decide;
        repeat match goal with
          | |- context [Z.min ?a ?b] =>
              destruct (Z.min_spec a b) as [[_ ->]|[_ ->]]
          end;
        try (by left);
        try (right; left; exists n, m; split; [by left|done]);
        try (right; right; left; split; [done|]; exists n, m; split;
             [unfold firstAt; cbn [find fst]; by rewrite bool_decide_eq_true_2
             |done]);
        try (right; right; right; exists [], (n, m), (nn, mn), l2;
             split_and!; cbn; done).
    + rewrite lookup_insert_ne in H1 by done. by left.
  - right; left. exists n', m'. split; [by right|done].
  - assert (note_pos n ≠ p) as Hp.
    { intros <-. by rewrite lookup_insert_eq in HN. }
    rewrite lookup_insert_ne in HN by done.
    right; right; left. split; [done|]. exists n', m'. split; [|done].
    unfold firstAt in *. cbn [find fst]. by rewrite bool_decide_eq_false_2.
  - right; right; right. by exists ((n, m) :: l1), x, y, l2.
Qed.


(** ** Chords *)




(** ** A single quarter note *)

(** C8. For a single recognised instrument with one note of length 48 at
    position 0, with a key in the range of exact quotients (below 2^53 in
    magnitude), the score has one part with one measure, numbered 1: the
    attributes of the instrument, one quarter note at the pitch of the key
    with duration 8, then three quarter rests, each a [note] element with
    a [rest], the duration 8 and the type quarter; the durations of the
    measure add up to 32. *)
Theorem single_quarter_note (name : string) (key : Z) :
  name ∈ INSTRUMENTS → exactRange key →
  ∃ sc first attributes note pitch step,
    convert [mkTrack name [mkPattern 0 [mkNote key 0 48]]] = Some sc
    ∧ createFirstMeasure 1 (clefOf name) false = Some first
    ∧ attributesOf name = Some attributes
    ∧ first = Elem "measure" [("number", "1")] None [attributes]
    ∧ NOTES !! (key `mod` 12) = Some pitch ∧ String.get 0 pitch = Some step
    ∧ note = noteElement false pitch step (int_div key 12) 48 "quarter"
    ∧ addNote (mkNote key 0 48) false
        (Some (createLengthTable [(mkNote key 0 48, 1)])) = Some note
    ∧ durationText note = Some "8" ∧ typeText note = Some "quarter"
    ∧ partList sc = [Elem "score-part" [("id", "P1")] None
                       [Elem "part-name" [] (Some name) []]]
    ∧ parts sc = [Elem "part" [("id", "P1")] None
                    [Elem "measure" [("number", "1")] None
                       [attributes; note; quarterRest; quarterRest;
                        quarterRest]]]
    ∧ measureDuration <$> (parts sc ≫= echildren) = [Some 32].
Proof.
  intros Hin _.
  destruct (NOTES_lookup key) as (pitch & step & Hp & Hs).
  assert (Hn : addNote (mkNote key 0 48) false (Some (<[0:=48]> ∅))
               = Some (noteElement false pitch step (int_div key 12) 48
                         "quarter")).
  { assert (Hl : (<[0:=48]> ∅ : gmap Z Z) !! note_pos (mkNote key 0 48)
                  = Some 48) by apply lookup_insert_eq.
    destruct (addNote_eq (<[0:=48]> ∅) (mkNote key 0 48) false 48 Hl)
      as (pitch' & step' & t & Hp' & Hs' & Ht & ->).
    cbn [note_key] in *. rewrite Hp in Hp'. inversion Hp'; subst pitch'.
    rewrite Hs in Hs'. inversion Hs'; subst step'.
    vm_compute in Ht. inversion Ht; subst t. reflexivity. }
  assert (Hd : durationText (noteElement false pitch step (int_div key 12) 48
                               "quarter") = Some "8") by reflexivity.
  remember (noteElement false pitch step (int_div key 12) 48 "quarter")
    as note eqn:Hnote.
  assert (Hconv : ∀ clef first,
    clefOf name = clef → createFirstMeasure 1 clef false = Some first →
    convert [mkTrack name [mkPattern 0 [mkNote key 0 48]]]
    = Some (mkScore
        [Elem "score-part" [("id", "P1")] None
           [Elem "part-name" [] (Some name) []]]
        [Elem "part" [("id", "P1")] None
           [append_children
              [note; addRest "quarter"; addRest "quarter"; addRest "quarter"]
              first]]
        (<[0%nat := 1]> ∅) [] 2)).
  { intros clef first Hclef Hfirst.
    unfold convert, laidOut. cbn [convertTracks declareParts track_name].
    unfold convertTrack. cbn [track_name track_patterns].
    rewrite (bool_decide_eq_true_2 _ Hin).
    change (patternNotes _) with [(mkNote key 0 48, 1)].
    cbn [length]. rewrite bool_decide_eq_false_2 by done.
    unfold layoutPart.
    change (createLengthTable _) with (<[0:=48]> (∅ : gmap Z Z)).
    cbn [head mbind option_bind snd].
    unfold firstMeasures. rewrite (bool_decide_eq_true_2 (1 = 1)) by done.
    fold (clefOf name).
    replace (if bool_decide (name ∈ BASS_INSTRUMENTS)
             then createFirstMeasure 1 "bass" false
             else createFirstMeasure 1 "treble" false)
      with (createFirstMeasure 1 (clefOf name) false)
      by (unfold clefOf; by case_bool_decide).
    rewrite Hclef, Hfirst.
    unfold layout_loop, layout_step. cbn [fst snd note_pos note_key].
    rewrite Hp, !Hn.
    unfold clefOf in Hclef.
    case_bool_decide; subst clef; vm_compute in Hfirst; inversion Hfirst;
      subst first; vm_compute; reflexivity. }
  unfold attributesOf, clefOf in *.
  case_bool_decide;
    (eexists _, _, _, note, pitch, step;
     split; [eapply Hconv; reflexivity|]; split; [reflexivity|];
     split; [reflexivity|];
     split_and!; try done;
     cbn [parts mbind]; subst note; reflexivity).
Qed.

Lemma single_quarter_note_witness :
  "piano" ∈ INSTRUMENTS
  ∧ (parts <$> convert [mkTrack "piano" [mkPattern 0 [mkNote 60 0 48]]])
    = Some [Elem "part" [("id", "P1")] None
       [Elem "measure" [("number", "1")] None
          [Elem "attributes" [] None
             [Elem "divisions" [] (Some "8") [];
              Elem "key" [] None [Elem "fifths" [] (Some "0") []];
              Elem "time" [] None
                [Elem "beats" [] (Some "4") [];
                 Elem "beat-type" [] (Some "4") []];
              Elem "clef" [] None
                [Elem "sign" [] (Some "G") []; Elem "line" [] (Some "2") []]];
           Elem "note" [] None
             [Elem "pitch" [] None
                [Elem "step" [] (Some "C") []; Elem "octave" [] (Some "5") []];
              Elem "duration" [] (Some "8") [];
              Elem "type" [] (Some "quarter") []];
           Elem "note" [] None
             [Elem "rest" [] None [];
              Elem "duration" [] (Some "8") [];
              Elem "type" [] (Some "quarter") []];
           Elem "note" [] None
             [Elem "rest" [] None [];
              Elem "duration" [] (Some "8") [];
              Elem "type" [] (Some "quarter") []];
           Elem "note" [] None
             [Elem "rest" [] None [];
              Elem "duration" [] (Some "8") [];
              Elem "type" [] (Some "quarter") []]]]].
Proof.
  assert (Hin : "piano" ∈ INSTRUMENTS) by (by vm_compute).
  assert (Hkey : exactRange 60) by (split; reflexivity).
  split; [exact Hin|].
  destruct (single_quarter_note "piano" 60 Hin Hkey)
    as (sc & first & attributes & note & pitch & step & -> & _ & Ha & _ & Hp
        & Hs & -> & _ & _ & _ & _ & Hparts & _).
  cbn [fmap option_fmap option_map]. rewrite Hparts.
  vm_compute in Ha, Hp. inversion Ha; subst attributes.
  inversion Hp; subst pitch.
  vm_compute in Hs. inversion Hs; subst step. reflexivity.
Defined.

(** ** Empty tracks *)

(** C2, at the failing input: a recognised track without notes, followed
    by a piano track with one note.  The empty track leaves
    [instrumentCounter] as it was, so the piano part receives the same
    identifier P1 and is removed with it: the score keeps the piano's
    declaration P2 and no part at all, whereas the piano alone yields one
    part. *)
Theorem empty_track_drops_next_part :
  (partList <$> convert emptyThenPiano)
    = Some [Elem "score-part" [("id", "P2")] None
              [Elem "part-name" [] (Some "piano") []]]
  ∧ (parts <$> convert emptyThenPiano) = Some []
  ∧ (scorePartwise <$> convert emptyThenPiano)
    = Some (Elem "score-partwise" [] None
              [Elem "movement-title" [] (Some "title of piece goes here") [];
               Elem "part-list" [] None
                 [Elem "score-part" [("id", "P2")] None
                    [Elem "part-name" [] (Some "piano") []]]])
  ∧ (emptyInstruments <$> laidOut emptyThenPiano) = Some ["P1"]
  ∧ ((λ sc, attrib_get "id" ∘ eattrib <$> parts sc) <$> laidOut emptyThenPiano)
    = Some [Some "P1"; Some "P1"]
  ∧ (length ∘ parts <$> convert (drop 1 emptyThenPiano)) = Some 1%nat.
Proof. split_and!; vm_compute; reflexivity. Qed.

(** ** Padding the parts to equal length *)













(** Chunks that come in order, as in [measure_tags_in_order], give tags
    that start at 1 or later and do not go down. *)
Lemma patternNotes_tags_ascending patternChunks :
  Sorted Z.le (0 :: timeline patternChunks) →
  Forall (λ c, (LMMS_MEASURE_LENGTH | pattern_pos c)) patternChunks →
  Sorted Z.le (1 :: (patternNotes patternChunks).*2).
Proof.
  intros Hs Hal. apply ascending_Sorted in Hs. apply ascending_Sorted.
  unfold patternNotes. rewrite sorted_by_pos_id.
  - apply (flattenChunks_tags _ 0); [lia| |done..].
    unfold notAhead, LMMS_MEASURE_LENGTH. lia.
  - apply (ascending_Sorted_tail 0). by apply flattenChunks_positions.
Qed.






(** * Further properties of the code *)

(** ** Rounding to a note type *)

(** X1. The length that [addNote] and the layout loop work with,
    [NOTE_TYPE[findClosestNoteType(lengthTable[position])]], is one of the
    seven standard lengths.  An entry of at least 3 ticks is rounded down
    and an entry below 384 ticks loses less than half of itself; an entry
    below 3 ticks is raised to 3.  Rounding again changes nothing. *)
Theorem correctedLength_rounding (table : gmap Z Z) (p l : Z) :
  table !! p = Some l →
  ∃ c, correctedLength table p = Some c
       ∧ c ∈ [192; 96; 48; 24; 12; 6; 3]
       ∧ (3 ≤ l → c ≤ l) ∧ (l < 384 → l < 2 * c) ∧ (l < 3 → c = 3)
       ∧ findClosestNoteType c = findClosestNoteType l
       ∧ correctedLength (<[p := c]> table) p = Some c.
Proof.
  intros Hl. unfold correctedLength. rewrite Hl.
  cbn [mbind option_bind]. rewrite !findClosestNoteType_eq.
  cbn [mbind option_bind]. unfold closestName.
  repeat case_bool_decide;
    (eexists; split; [vm_compute; reflexivity|]);
    rewrite lookup_insert_eq; cbn [mbind option_bind];
    rewrite !findClosestNoteType_eq; unfold closestName;
    (split; [rewrite !elem_of_cons; tauto|]);
    split_and!; try lia; try reflexivity;
    repeat case_bool_decide; try lia; reflexivity.
Qed.

Lemma correctedLength_rounding_witness :
  ∃ c, correctedLength {[0 := 100]} 0 = Some c
       ∧ c ∈ [192; 96; 48; 24; 12; 6; 3]
       ∧ (3 ≤ 100 → c ≤ 100) ∧ (100 < 384 → 100 < 2 * c) ∧ (100 < 3 → c = 3)
       ∧ findClosestNoteType c = findClosestNoteType 100
       ∧ correctedLength (<[0 := c]> {[0 := 100]}) 0 = Some c.
Proof.
  apply (correctedLength_rounding {[0 := 100]} 0 100). reflexivity.
Defined.

(** ** Rests and gaps *)

Ltac zdiv := Z.to_euclidean_division_equations; lia.

Lemma quot_step_neg a b :
  a ≤ 0 → 0 < b → - b < a - a `quot` b * b ≤ 0 ∧ a `quot` b ≤ 0.
Proof.
  intros Ha Hb. replace a with (- (- a)) by lia. rewrite Z.quot_opp_l by lia.
  destruct (quot_step (- a) b) as [H1 H2]; [lia..|]. lia.
Qed.

(** The counts of [getRests] for a gap of at least 0 ticks, with the
    ticks that they leave over. *)
Lemma getRests_nonneg gap :
  0 ≤ gap →
  ∃ u t s e q w r,
    getRests gap = [("64th", u); ("32nd", t); ("16th", s); ("eighth", e);
                    ("quarter", q); ("whole", w)]
    ∧ 0 ≤ u ≤ 1 ∧ 0 ≤ t ≤ 1 ∧ 0 ≤ s ≤ 1 ∧ 0 ≤ e ≤ 1 ∧ 0 ≤ q ≤ 3 ∧ 0 ≤ w
    ∧ 0 ≤ r < 3
    ∧ gap = 192 * w + 48 * q + 24 * e + 12 * s + 6 * t + 3 * u + r.
Proof.
  intros Hg. unfold getRests, int_div, LMMS_MEASURE_LENGTH.
  set (w := gap `quot` 192). set (r1 := gap - w * 192).
  set (q := r1 `quot` 48). set (r2 := r1 - q * 48).
  set (e := r2 `quot` 24). set (r3 := r2 - e * 24).
  set (s := r3 `quot` 12). set (r4 := r3 - s * 12).
  set (t := r4 `quot` 6). set (r5 := r4 - t * 6).
  set (u := r5 `quot` 3).
  destruct (quot_step gap 192) as [H1 G1]; [lia..|].
  fold w r1 in H1; fold w in G1.
  destruct (quot_step r1 48) as [H2 G2]; [lia..|].
  fold q r2 in H2; fold q in G2.
  destruct (quot_step r2 24) as [H3 G3]; [lia..|].
  fold e r3 in H3; fold e in G3.
  destruct (quot_step r3 12) as [H4 G4]; [lia..|].
  fold s r4 in H4; fold s in G4.
  destruct (quot_step r4 6) as [H5 G5]; [lia..|].
  fold t r5 in H5; fold t in G5.
  destruct (quot_step r5 3) as [H6 G6]; [lia..|]. fold u in H6, G6.
  exists u, t, s, e, q, w, (r5 - u * 3). split; [reflexivity|]. lia.
Qed.

(** The counts of [getRests] for a gap below 0: none is above 0. *)
Lemma getRests_neg gap : gap ≤ 0 → Forall (λ r, r.2 ≤ 0) (getRests gap).
Proof.
  intros Hg. unfold getRests, int_div, LMMS_MEASURE_LENGTH.
  set (w := gap `quot` 192). set (r1 := gap - w * 192).
  set (q := r1 `quot` 48). set (r2 := r1 - q * 48).
  set (e := r2 `quot` 24). set (r3 := r2 - e * 24).
  set (s := r3 `quot` 12). set (r4 := r3 - s * 12).
  set (t := r4 `quot` 6). set (r5 := r4 - t * 6).
  set (u := r5 `quot` 3).
  destruct (quot_step_neg gap 192) as [H1 G1]; [lia..|].
  fold w r1 in H1; fold w in G1.
  destruct (quot_step_neg r1 48) as [H2 G2]; [lia..|].
  fold q r2 in H2; fold q in G2.
  destruct (quot_step_neg r2 24) as [H3 G3]; [lia..|].
  fold e r3 in H3; fold e in G3.
  destruct (quot_step_neg r3 12) as [H4 G4]; [lia..|].
  fold s r4 in H4; fold s in G4.
  destruct (quot_step_neg r4 6) as [H5 G5]; [lia..|].
  fold t r5 in H5; fold t in G5.
  destruct (quot_step_neg r5 3) as [H6 G6]; [lia..|]. fold u in H6, G6.
  rewrite !Forall_cons, Forall_nil. cbn [snd]. lia.
Qed.

Lemma applyRests_nil rests :
  applyRests rests = [] ↔ Forall (λ r, r.2 ≤ 0) rests.
Proof.
  unfold applyRests. induction rests as [|r rests IH]; [by split|].
  cbn [flat_map]. rewrite Forall_cons, <- IH. split.
  - intros H. apply app_eq_nil in H as [H1 H2]. split; [|done].
    destruct (Z.to_nat r.2) eqn:Hn; [lia|done].
  - intros [H1 ->]. rewrite app_nil_r.
    by replace (Z.to_nat r.2) with 0%nat by lia.
Qed.

(** X2. For a gap in the range of exact quotients (below 2^53 in
    magnitude), the rests that the loops emit are none at all exactly when
    the gap is below 3 ticks: a negative gap (a note that starts before
    the previous one ends) is passed over in silence, and no error is
    raised. *)
Theorem no_rests_below_three_ticks (gap : Z) :
  exactRange gap →
  applyRests (getRests gap) = [] ↔ gap < 3.
Proof.
  intros _. rewrite applyRests_nil. destruct (decide (0 ≤ gap)) as [Hg|Hg].
  - destruct (getRests_nonneg gap Hg)
      as (u & t & s & e & q & w & r & -> & ?).
    rewrite !Forall_cons, Forall_nil. cbn [snd]. lia.
  - split; [lia|]. intros _. apply getRests_neg. lia.
Qed.

Lemma no_rests_below_three_ticks_witness :
  (applyRests (getRests (-50)) = [] ↔ -50 < 3)
  ∧ (applyRests (getRests 2) = [] ↔ 2 < 3)
  ∧ (applyRests (getRests 3) = [] ↔ 3 < 3).
Proof.
  split; [|split].
  - apply (no_rests_below_three_ticks (-50)). split; reflexivity.
  - apply (no_rests_below_three_ticks 2). split; reflexivity.
  - apply (no_rests_below_three_ticks 3). split; reflexivity.
Defined.


Lemma timeOf_None e es :
  e ∈ es → advances e = true → durationValue e = None → timeOf es = None.
Proof.
  intros Hin Ha Hd. induction es as [|e' es IH]; [by apply elem_of_nil in Hin|].
  unfold timeOf in *. cbn [foldr].
  apply elem_of_cons in Hin as [<-|Hin].
  - by rewrite Ha, Hd.
  - rewrite (IH Hin). by destruct (advances e'), (durationValue e').
Qed.

Lemma elem_of_applyRests type count rests :
  (type, count) ∈ rests → 0 < count → addRest type ∈ applyRests rests.
Proof.
  intros Hin Hc. unfold applyRests. apply list_elem_of_In, in_flat_map.
  exists (type, count). split; [by apply list_elem_of_In|].
  cbn [fst snd]. apply list_elem_of_In.
  destruct (Z.to_nat count) eqn:Hn; [lia|]. by left.
Qed.

(** The written durations of the rests for a gap on the grid of 32nd
    notes, within one measure. *)
Lemma timeOf_rests gap :
  0 ≤ gap < 192 → gap `mod` 6 = 0 →
  timeOf (applyRests (getRests gap)) = Some (gap `div` 6).
Proof.
  intros Hg Hm.
  assert (Hall : forallb (λ k, bool_decide
            (timeOf (applyRests (getRests (6 * k))) = Some k)) (seqZ 0 32)
          = true) by (vm_compute; reflexivity).
  rewrite forallb_forall in Hall.
  specialize (Hall (gap `div` 6)).
  pose proof (Z.div_mod gap 6 ltac:(lia)) as Hdm.
  replace (6 * (gap `div` 6)) with gap in Hall by lia.
  apply bool_decide_eq_true in Hall; [done|].
  apply list_elem_of_In, elem_of_seqZ. lia.
Qed.

(** X3. For a gap of less than a measure that is a multiple of 6 ticks
    (a 32nd), the durations written into the rests add up to the gap in
    divisions.  For a gap of a measure or more, and for a gap with an odd
    64th left over, some rest carries no number and the sum is not
    defined. *)
Theorem rests_fill_the_gap (gap : Z) :
  (0 ≤ gap < 192 → gap `mod` 6 = 0 →
   timeOf (applyRests (getRests gap)) = Some (gap `div` 6))
  ∧ (192 ≤ gap ∨ (0 ≤ gap ∧ 3 ≤ gap `mod` 6) →
     timeOf (applyRests (getRests gap)) = None).
Proof.
  split; [apply timeOf_rests|].
  intros Hg. assert (H0 : 0 ≤ gap) by lia.
  destruct (getRests_nonneg gap H0)
    as (u & t & s & e & q & w & r & -> & Hu & Ht & Hs & He & Hq & Hw & Hr
        & Hgap).
  destruct (decide (192 ≤ gap)) as [Hwhole|Hwhole].
  - apply (timeOf_None (addRest "whole")); [|done..].
    apply (elem_of_applyRests _ w); [rewrite !elem_of_cons; tauto|lia].
  - apply (timeOf_None (addRest "64th")); [|done..].
    apply (elem_of_applyRests _ u); [rewrite !elem_of_cons; tauto|zdiv].
Qed.

Lemma rests_fill_the_gap_witness :
  timeOf (applyRests (getRests 138)) = Some (138 `div` 6)
  ∧ timeOf (applyRests (getRests 195)) = None.
Proof.
  destruct (rests_fill_the_gap 138) as [H1 _].
  destruct (rests_fill_the_gap 195) as [_ H2].
  split; [apply H1; [lia|reflexivity] | apply H2; left; lia].
Defined.

(** ** Notes *)

Lemma addNote_shape note isChord lengthTable e :
  addNote note isChord lengthTable = Some e →
  ∃ pitch step len type,
    NOTES !! (note_key note `mod` 12) = Some pitch
    ∧ String.get 0 pitch = Some step
    ∧ e = noteElement isChord pitch step (int_div (note_key note) 12) len type.
Proof.
  unfold addNote. intros H.
  destruct (NOTES !! _) as [pitch|] eqn:Hp; [|done].
  cbn [mbind option_bind] in H.
  destruct (String.get 0 pitch) as [step|] eqn:Hs; [|done].
  cbn [mbind option_bind] in H.
  destruct (match lengthTable with Some _ => _ | None => _ end) as [len|];
    [|done].
  cbn [mbind option_bind] in H.
  destruct (findClosestNoteType len) as [type|]; [|done].
  inversion H. by exists pitch, step, len, type.
Qed.


Lemma pitchName_inj k1 k2 :
  0 ≤ k1 < 12 → 0 ≤ k2 < 12 → pitchName k1 = pitchName k2 → k1 = k2.
Proof.
  intros H1 H2.
  assert (Hall : forallb (λ a, forallb (λ b,
              bool_decide (pitchName a = pitchName b → a = b)) (seqZ 0 12))
            (seqZ 0 12) = true) by (vm_compute; reflexivity).
  rewrite forallb_forall in Hall.
  specialize (Hall k1 ltac:(apply list_elem_of_In, elem_of_seqZ; lia)).
  rewrite forallb_forall in Hall.
  specialize (Hall k2 ltac:(apply list_elem_of_In, elem_of_seqZ; lia)).
  by apply bool_decide_eq_true in Hall.
Qed.

(** X5. For keys of at least 0 in the range of exact quotients (below
    2^53), the [pitch] element that [addNote] writes determines the key:
    two notes with the same step, alteration and octave have the same
    key.  Below 0 this fails, because the octave is truncated toward zero
    while the pitch class is taken modulo 12: the keys -1 and 11 are both
    written as B in octave 0. *)
Theorem pitch_determines_key (n1 n2 : Note) (c1 c2 : bool)
    (t1 t2 : option (gmap Z Z)) (e1 e2 : Element) :
  (0 ≤ note_key n1 < EXACT_LIMIT → 0 ≤ note_key n2 < EXACT_LIMIT →
   addNote n1 c1 t1 = Some e1 → addNote n2 c2 t2 = Some e2 →
   efind "pitch" e1 = efind "pitch" e2 → note_key n1 = note_key n2)
  ∧ (efind "pitch" <$> addNote (mkNote (-1) 0 48) false None)
    = (efind "pitch" <$> addNote (mkNote 11 0 48) false None).
Proof.
  split; [|reflexivity].
  intros [Hk1 _] [Hk2 _] He1 He2 Hp.
  apply addNote_shape in He1 as (p1 & s1 & l1 & ty1 & Hn1 & Hs1 & ->).
  apply addNote_shape in He2 as (p2 & s2 & l2 & ty2 & Hn2 & Hs2 & ->).
  assert (Hf : ∀ c p s o l ty,
            efind "pitch" (noteElement c p s o l ty)
            = Some (Elem "pitch" [] None
                ([Elem "step" [] (Some (String s EmptyString)) []]
                 ++ (if bool_decide (String.get 1 p = Some "#"%char)
                     then [Elem "alter" [] (Some "1") []] else [])
                 ++ [Elem "octave" [] (Some (str o)) []]))).
  { intros []; reflexivity. }
  rewrite !Hf in Hp. clear Hf.
  assert (Hm : note_key n1 `mod` 12 = note_key n2 `mod` 12
               ∧ int_div (note_key n1) 12 = int_div (note_key n2) 12).
  { pose proof (Z.mod_pos_bound (note_key n1) 12 ltac:(lia)).
    pose proof (Z.mod_pos_bound (note_key n2) 12 ltac:(lia)).
    split.
    - apply pitchName_inj; [lia..|]. unfold pitchName. rewrite Hn1, Hn2.
      cbn [fmap option_fmap option_map]. rewrite Hs1, Hs2.
      do 2 case_bool_decide; cbn [app] in Hp; inversion Hp; subst; done.
    - do 2 case_bool_decide; cbn [app] in Hp; inversion Hp as [[Hs Ho]];
        try (by apply (inj pretty)). }
  destruct Hm as [Hm Hq]. unfold int_div in Hq.
  rewrite !Z.quot_div_nonneg in Hq by lia.
  pose proof (Z.div_mod (note_key n1) 12 ltac:(lia)).
  pose proof (Z.div_mod (note_key n2) 12 ltac:(lia)). lia.
Qed.

Lemma pitch_determines_key_witness :
  note_key (mkNote 61 0 48) = note_key (mkNote 61 96 24).
Proof.
  destruct (pitch_determines_key (mkNote 61 0 48) (mkNote 61 96 24) false true
              None (Some {[96 := 24]})
              (noteElement false "C#" "C" 5 48 "quarter")
              (noteElement true "C#" "C" 5 24 "eighth")) as [H _].
  apply H; [split; [cbn; lia|reflexivity]..|reflexivity|reflexivity|reflexivity].
Defined.

(** ** The length table *)

(** X6. The length table has an entry for exactly the positions of the
    notes.  Every entry is a length that the notes show: the raw length of
    a note at the position, the distance from the position to the end of
    the measure of the first note there, or the distance to a directly
    following note at another position. *)
Theorem createLengthTable_entries (notes : list (Note * Z)) (p : Z) :
  (is_Some (createLengthTable notes !! p) ↔ p ∈ positions notes)
  ∧ ∀ l, createLengthTable notes !! p = Some l →
      (∃ n m, (n, m) ∈ notes ∧ note_pos n = p ∧ l = note_len n)
      ∨ (∃ n m, firstAt p notes = Some (n, m)
                ∧ l = m * LMMS_MEASURE_LENGTH - p)
      ∨ (∃ l1 x y l2, notes = l1 ++ x :: y :: l2 ∧ note_pos x.1 = p
                      ∧ note_pos y.1 ≠ p ∧ l = note_pos y.1 - p).
Proof.
  unfold createLengthTable. split; [split|].
  - intros Hs. destruct (lengthTable_loop_dom notes ∅ p Hs) as [[? H]|H];
      [by rewrite lookup_empty in H|done].
  - intros Hp. apply elem_of_positions in Hp as (n & m & Hin & <-).
    destruct (lengthTable_loop_raw notes ∅ n m Hin) as (v & Hv & _). eauto.
  - intros l Hl.
    destruct (lengthTable_loop_attain notes ∅ p l Hl) as [H|[H|[[_ H]|H]]];
      [by rewrite lookup_empty in H|auto..].
Qed.

Lemma createLengthTable_entries_witness :
  createLengthTable [(mkNote 60 180 48, 1)] !! 180 = Some 12
  ∧ ((∃ n m, (n, m) ∈ [(mkNote 60 180 48, 1)] ∧ note_pos n = 180
             ∧ 12 = note_len n)
     ∨ (∃ n m, firstAt 180 [(mkNote 60 180 48, 1)] = Some (n, m)
               ∧ 12 = m * LMMS_MEASURE_LENGTH - 180)
     ∨ (∃ l1 x y l2, [(mkNote 60 180 48, 1)] = l1 ++ x :: y :: l2
                     ∧ note_pos x.1 = 180 ∧ note_pos y.1 ≠ 180
                     ∧ 12 = note_pos y.1 - 180)).
Proof.
  split; [reflexivity|].
  destruct (createLengthTable_entries [(mkNote 60 180 48, 1)] 180) as [_ H].
  apply (H 12). reflexivity.
Defined.

(** ** Sorting and tagging *)

(** X7. The list that the layout works on is the tagged notes of the
    chunks rearranged in ascending order of position; notes at one
    position keep the order they have in the project file. *)
Theorem patternNotes_sorted_stable (patternChunks : list Pattern) (p : Z) :
  Sorted Z.le (positions (patternNotes patternChunks))
  ∧ patternNotes patternChunks ≡ₚ flattenChunks patternChunks
  ∧ List.filter (λ y, bool_decide (note_pos y.1 = p))
      (patternNotes patternChunks)
    = List.filter (λ y, bool_decide (note_pos y.1 = p))
        (flattenChunks patternChunks).
Proof.
  unfold patternNotes. split_and!.
  - apply sorted_by_pos_sorted.
  - apply sorted_by_pos_perm.
  - apply sorted_by_pos_stable.
Qed.

Lemma tagChunk_upper c m0 notes n m :
  (n, m) ∈ tagChunk c m0 notes →
  note_pos n < m * LMMS_MEASURE_LENGTH ∧ m0 ≤ m.
Proof.
  revert m0. induction notes as [|n' notes IH]; intros m0 Hin.
  { by apply elem_of_nil in Hin. }
  cbn [tagChunk] in Hin.
  assert (Hstep : note_pos (tagNote c m0 n').2.1
                    < (tagNote c m0 n').2.2 * LMMS_MEASURE_LENGTH
                  ∧ m0 ≤ (tagNote c m0 n').2.2
                  ∧ (tagNote c m0 n').1 = (tagNote c m0 n').2.2).
  { unfold tagNote. cbn [fst snd note_pos].
    pose proof (ceil_div_bounds (c + note_pos n')) as Hc.
    unfold LMMS_MEASURE_LENGTH in *. repeat case_bool_decide; lia. }
  destruct Hstep as (Hlt & Hle & Heq).
  apply elem_of_cons in Hin as [Hin|Hin].
  - destruct (tagNote c m0 n').2 as [n1 m1]. inversion Hin; subst. done.
  - destruct (IH _ Hin) as [H1 H2]. split; [done|]. rewrite Heq in H2. lia.
Qed.

Lemma tagChunk_notAhead notes c p0 m0 n m :
  notAhead p0 m0 → ascending p0 ((λ n, c + note_pos n) <$> notes) →
  (n, m) ∈ tagChunk c m0 notes → notAhead (note_pos n) m.
Proof.
  revert p0 m0. induction notes as [|n' notes IH]; intros p0 m0 HI Ha Hin.
  { by apply elem_of_nil in Hin. }
  rewrite fmap_cons in Ha. destruct Ha as [Hle Ha].
  destruct (tagNote_spec c m0 n' p0 HI Hle) as (Hn & Hm & HI' & Hb).
  cbn [tagChunk] in Hin. apply elem_of_cons in Hin as [Heq|Hin].
  - rewrite Hn in Heq. inversion Heq; subst. done.
  - by apply (IH (c + note_pos n') (tagNote c m0 n').1).
Qed.

(** X8. For chunks and notes at positions in the range of exact
    quotients (below 2^53 in magnitude), a tagged note starts before the
    end of the measure it is tagged with, whatever the order of the
    chunks and of their notes.  When the chunk of the note starts at 0 or
    later and stores its notes in ascending order at offsets of at least
    0, the tag is the measure that holds the position or the one after
    it. *)
Theorem tag_within_one_measure (patternChunks : list Pattern)
    (n : Note) (m : Z) :
  Forall chunkInRange patternChunks →
  (n, m) ∈ patternNotes patternChunks →
  note_pos n `div` LMMS_MEASURE_LENGTH + 1 ≤ m
  ∧ (Forall (λ c, Sorted Z.le (0 :: timeline [c])) patternChunks →
     m ≤ note_pos n `div` LMMS_MEASURE_LENGTH + 2).
Proof.
  intros _. unfold patternNotes. rewrite elem_of_sorted_by_pos.
  intros Hin. unfold flattenChunks in Hin.
  apply list_elem_of_In, in_flat_map in Hin as (c & Hc & Hin).
  apply list_elem_of_In in Hin, Hc.
  pose proof (Z.div_mod (note_pos n) 192 ltac:(lia)) as Hdm.
  pose proof (Z.mod_pos_bound (note_pos n) 192 ltac:(lia)) as Hmb.
  split.
  - apply tagChunk_upper in Hin as [Hlt _]. unfold LMMS_MEASURE_LENGTH in *.
    nia.
  - intros Hok. rewrite Forall_forall in Hok. specialize (Hok c Hc).
    apply ascending_Sorted in Hok. rewrite timeline_cons, app_nil_r in Hok.
    destruct Hok as [H0 Hok].
    eapply tagChunk_notAhead in Hin; [|by apply initial_notAhead|exact Hok].
    unfold notAhead, LMMS_MEASURE_LENGTH in *. nia.
Qed.

Lemma tag_within_one_measure_witness :
  (mkNote 62 385 48, 4)
    ∈ patternNotes [mkPattern 0 [mkNote 60 0 48; mkNote 62 385 48]]
  ∧ 385 `div` LMMS_MEASURE_LENGTH + 1 ≤ 4
  ∧ 4 ≤ 385 `div` LMMS_MEASURE_LENGTH + 2.
Proof.
  assert (Hin : (mkNote 62 385 48, 4)
     ∈ patternNotes [mkPattern 0 [mkNote 60 0 48; mkNote 62 385 48]]).
  { right. left. }
  assert (Hr : Forall chunkInRange
                 [mkPattern 0 [mkNote 60 0 48; mkNote 62 385 48]])
    by (repeat constructor).
  split; [exact Hin|].
  destruct (tag_within_one_measure _ _ _ Hr Hin) as [H1 H2].
  split; [exact H1|]. apply H2. repeat constructor; cbn; lia.
Defined.

(** X9. For chunks and notes at positions in the range of exact
    quotients (below 2^53): when every chunk starts at 0 or later and,
    from the start of the chunk on, its notes go up in position without
    skipping a whole measure (unless they land on a measure line), every
    note is tagged with the measure that holds its position. *)
Theorem tags_exact_without_skips (patternChunks : list Pattern)
    (n : Note) (m : Z) :
  Forall chunkInRange patternChunks →
  Forall (λ c, 0 ≤ pattern_pos c
               ∧ steady (pattern_pos c)
                   ((λ n, pattern_pos c + note_pos n) <$> pattern_notes c))
    patternChunks →
  (n, m) ∈ patternNotes patternChunks →
  m = note_pos n `div` LMMS_MEASURE_LENGTH + 1.
Proof.
  intros _ Hok. unfold patternNotes. rewrite elem_of_sorted_by_pos.
  intros Hin. unfold flattenChunks in Hin.
  apply list_elem_of_In, in_flat_map in Hin as (c & Hc & Hin).
  apply list_elem_of_In in Hin, Hc.
  rewrite Forall_forall in Hok. destruct (Hok c Hc) as [H0 Hs].
  eapply tagChunk_exact; [exact H0| |exact Hs|exact Hin].
  unfold int_div, LMMS_MEASURE_LENGTH. by rewrite Z.quot_div_nonneg by lia.
Qed.

Lemma tags_exact_without_skips_witness :
  (mkNote 62 576 48, 4 : Z)
    ∈ patternNotes [mkPattern 0 [mkNote 60 10 48; mkNote 62 576 48]]
  ∧ 4 = 576 `div` LMMS_MEASURE_LENGTH + 1.
Proof.
  assert (Hin : (mkNote 62 576 48, 4 : Z)
     ∈ patternNotes [mkPattern 0 [mkNote 60 10 48; mkNote 62 576 48]]).
  { right. left. }
  split; [exact Hin|].
  refine (tags_exact_without_skips _ _ _ _ _ Hin); [repeat constructor|].
  apply Forall_cons. split; [|by apply Forall_nil]. cbn.
  repeat split; try lia; [left; by apply Z.leb_le|right; reflexivity].
Defined.

(** ** The shape of one pass of the note loop *)




Section Shape.

Context (table : gmap Z Z).



End Shape.

(** ** The measures of a part, in order *)














Section Numbers.

Context (table : gmap Z Z).


End Numbers.




(** ** The time that a measure holds *)





Section FullMeasures.

Context (table : gmap Z Z) (whole : list (Note * Z)).

Hypothesis Hfit : ∀ x, x ∈ whole →
  (x.2 - 1) * 192 ≤ note_pos x.1 < x.2 * 192
  ∧ note_pos x.1 `mod` 6 = 0
  ∧ ∃ l, table !! note_pos x.1 = Some l ∧ 6 ≤ l
         ∧ note_pos x.1 + l ≤ x.2 * 192.

Hypothesis Hnext : ∀ x y l, x ∈ whole → y ∈ whole →
  table !! note_pos x.1 = Some l → note_pos x.1 < note_pos y.1 →
  note_pos x.1 + l ≤ note_pos y.1.




End FullMeasures.






(** ** From the chunks of a track to its measures *)

Lemma tagChunk_elem c m0 notes n m :
  (n, m) ∈ tagChunk c m0 notes →
  ∃ n0, n0 ∈ notes ∧ note_pos n = c + note_pos n0
        ∧ note_len n = note_len n0 ∧ note_key n = note_key n0.
Proof.
  revert m0. induction notes as [|n' notes IH]; intros m0 Hin.
  { by apply elem_of_nil in Hin. }
  cbn [tagChunk] in Hin. apply elem_of_cons in Hin as [Hin|Hin].
  - exists n'. split; [by left|]. unfold tagNote in Hin. cbn [snd] in Hin.
    inversion Hin. done.
  - destruct (IH _ Hin) as (n0 & Hn0 & ?). exists n0. split; [by right|done].
Qed.


(** X12. For chunks and notes at positions in the range of exact
    quotients (below 2^53 in magnitude): when every note of a track has a
    length above 0, every entry of the length table of the track is above
    0: cutting a note at the end of its measure or at the next note never
    leaves a length of 0 or less. *)
Theorem lengthTable_positive (patternChunks : list Pattern) (p l : Z) :
  Forall chunkInRange patternChunks →
  Forall (λ c, Forall (λ n, 0 < note_len n) (pattern_notes c)) patternChunks →
  createLengthTable (patternNotes patternChunks) !! p = Some l → 0 < l.
Proof.
  intros _ Hpos Hl. rewrite Forall_forall in Hpos.
  pose proof (sorted_by_pos_sorted (flattenChunks patternChunks)) as Hs.
  fold (patternNotes patternChunks) in Hs.
  apply Sorted_StronglySorted in Hs; [|intros ???; lia].
  assert (Hin : ∀ n m, (n, m) ∈ patternNotes patternChunks →
            0 < note_len n ∧ note_pos n < m * LMMS_MEASURE_LENGTH).
  { intros n m Hnm. unfold patternNotes in Hnm.
    rewrite elem_of_sorted_by_pos, elem_of_flattenChunks in Hnm.
    destruct Hnm as (c & Hc & Hnm).
    pose proof (tagChunk_upper _ _ _ _ _ Hnm) as [Hup _].
    destruct (tagChunk_elem _ _ _ _ _ Hnm) as (n0 & Hn0 & _ & Hlen & _).
    split; [|done]. rewrite Hlen.
    specialize (Hpos c Hc). rewrite Forall_forall in Hpos. by apply Hpos. }
  destruct (lengthTable_loop_attain _ ∅ _ l Hl)
    as [H1|[(n' & m' & Hin' & Hp' & ->)|[[_ (n' & m' & Hf' & ->)]
       |(l1 & a & b & l2 & Heq & Ha & Hb & ->)]]].
  - by rewrite lookup_empty in H1.
  - by apply (Hin n' m').
  - apply firstAt_Some in Hf' as [Hin' Hp']. cbn [fst] in Hp'.
    destruct (Hin _ _ Hin') as [_ Hup]. lia.
  - rewrite Heq in Hs. pose proof (sorted_adjacent l1 a b l2 Hs). lia.
Qed.

Lemma lengthTable_positive_witness :
  createLengthTable
    (patternNotes [mkPattern 0 [mkNote 60 180 48; mkNote 62 186 48]]) !! 180
  = Some 6
  ∧ 0 < 6.
Proof.
  split; [reflexivity|].
  apply (lengthTable_positive
           [mkPattern 0 [mkNote 60 180 48; mkNote 62 186 48]] 180 6);
    [repeat constructor| |reflexivity].
  repeat constructor; cbn; lia.
Defined.




(** ** Part identifiers *)








Lemma declareParts_filter tracks k :
  declareParts (List.filter recognised tracks) k = declareParts tracks k.
Proof.
  revert k. induction tracks as [|el tracks IH]; intros k; [done|].
  cbn [List.filter declareParts]. destruct (recognised el) eqn:Hr.
  - cbn [declareParts]. unfold recognised in Hr. rewrite Hr. by rewrite IH.
  - unfold recognised in Hr. rewrite Hr. apply IH.
Qed.

Lemma convertTracks_filter tracks sc :
  convertTracks (List.filter recognised tracks) sc = convertTracks tracks sc.
Proof.
  revert sc. induction tracks as [|el tracks IH]; intros sc; [done|].
  cbn [List.filter convertTracks]. destruct (recognised el) eqn:Hr.
  - cbn [convertTracks]. destruct (convertTrack el sc); [|done]. apply IH.
  - unfold convertTrack. unfold recognised in Hr. rewrite Hr.
    cbn [mbind option_bind]. apply IH.
Qed.

(** X14. Tracks whose name is not in [INSTRUMENTS] leave no trace: the
    score is the one of the project without them.  In particular they
    take no part identifier. *)
Theorem unrecognised_tracks_ignored (tracks : list Track) :
  convert (List.filter recognised tracks) = convert tracks.
Proof.
  unfold convert, laidOut. by rewrite declareParts_filter, convertTracks_filter.
Qed.

















(** ** The parts of the written score *)










(** ** Further edge cases *)

(** X20. [createFirstMeasure] raises no error exactly for the clef types
    treble and bass, the keys of [CLEF_TYPE]; the script passes no other,
    so the measures in front of the first note are built for every
    instrument name and every first measure number. *)
Theorem createFirstMeasure_clef (measureCounter : Z) (clefType : string)
    (isRest : bool) (name : string) (firstNoteMeasureNum : Z) :
  (is_Some (createFirstMeasure measureCounter clefType isRest)
   ↔ clefType = "treble" ∨ clefType = "bass")
  ∧ is_Some (firstMeasures name firstNoteMeasureNum).
Proof.
  split.
  - unfold createFirstMeasure.
    destruct (CLEF_TYPE !! clefType) as [clef|] eqn:Hc; cbn [mbind option_bind].
    + apply elem_of_list_to_map_2 in Hc.
      apply (list_elem_of_fmap_2 fst) in Hc. cbn in Hc.
      rewrite !elem_of_cons, elem_of_nil in Hc. split; [tauto|eauto].
    + split; [by intros [? ?]|]. intros [-> | ->]; by vm_compute in Hc.
  - destruct (firstMeasures_spec name firstNoteMeasureNum)
      as (pre & m & -> & _).
    eauto.
Qed.

(** X21. For a gap of at least 0 ticks in the range of exact quotients
    (below 2^53), [getRests] asks for at most one rest of each of the
    types 64th, 32nd, 16th and eighth and for at most three quarter
    rests, and for no negative count: below a whole measure a gap is
    filled with at most seven rests. *)
Theorem getRests_counts_bounded (gap : Z) :
  0 ≤ gap < EXACT_LIMIT →
  ∃ n64 n32 n16 n8 n4 n1,
    getRests gap = [("64th", n64); ("32nd", n32); ("16th", n16);
                    ("eighth", n8); ("quarter", n4); ("whole", n1)]
    ∧ 0 ≤ n64 ≤ 1 ∧ 0 ≤ n32 ≤ 1 ∧ 0 ≤ n16 ≤ 1 ∧ 0 ≤ n8 ≤ 1 ∧ 0 ≤ n4 ≤ 3
    ∧ n1 = gap `div` 192
    ∧ Z.of_nat (length (applyRests (getRests gap))) ≤ n1 + 7.
Proof.
  intros [Hg _].
  destruct (getRests_nonneg gap Hg)
    as (u & t & s & e & q & w & r & Heq & Hu & Ht & Hs & He & Hq & Hw & Hr
        & Hgap).
  exists u, t, s, e, q, w. rewrite Heq. split; [reflexivity|].
  split_and!; try lia; [zdiv|].
  unfold applyRests. cbn [flat_map fst snd].
  rewrite !length_app, !length_replicate. cbn [length]. lia.
Qed.

Lemma getRests_counts_bounded_witness :
  ∃ n64 n32 n16 n8 n4 n1,
    getRests 189 = [("64th", n64); ("32nd", n32); ("16th", n16);
                    ("eighth", n8); ("quarter", n4); ("whole", n1)]
    ∧ 0 ≤ n64 ≤ 1 ∧ 0 ≤ n32 ≤ 1 ∧ 0 ≤ n16 ≤ 1 ∧ 0 ≤ n8 ≤ 1 ∧ 0 ≤ n4 ≤ 3
    ∧ n1 = 189 `div` 192
    ∧ Z.of_nat (length (applyRests (getRests 189))) ≤ n1 + 7.
Proof. apply (getRests_counts_bounded 189). split; [lia|reflexivity]. Defined.

Lemma Sorted_by_pos (l : list (Note * Z)) :
  Sorted Z.le (positions l) →
  Sorted (λ x y : Note * Z, note_pos x.1 ≤ note_pos y.1) l.
Proof.
  induction l as [|x l IH]; intros Hs; [constructor|].
  rewrite positions_cons in Hs. apply Sorted_inv in Hs as [Hs Hd].
  constructor; [by apply IH|]. destruct l as [|y l]; constructor.
  rewrite positions_cons in Hd. by apply HdRel_inv in Hd.
Qed.

(** X22. The order in which a track stores its chunks does not matter
    for the notes that are laid out: the tagged notes are the same up to
    their order, they are visited at the same positions, and when no two
    notes share a position the sorted lists are equal. *)
Theorem chunk_order_irrelevant (patternChunks patternChunks' : list Pattern) :
  patternChunks ≡ₚ patternChunks' →
  patternNotes patternChunks ≡ₚ patternNotes patternChunks'
  ∧ positions (patternNotes patternChunks)
    = positions (patternNotes patternChunks')
  ∧ (NoDup (positions (patternNotes patternChunks)) →
     patternNotes patternChunks = patternNotes patternChunks').
Proof.
  intros Hperm.
  assert (Hp : patternNotes patternChunks ≡ₚ patternNotes patternChunks').
  { unfold patternNotes, flattenChunks. rewrite !sorted_by_pos_perm.
    by apply Permutation_flat_map. }
  split; [exact Hp|]. split.
  - apply (Sorted_unique Z.le).
    + apply sorted_by_pos_sorted.
    + apply sorted_by_pos_sorted.
    + unfold positions. by apply fmap_Permutation.
  - intros Hnd.
    assert (Htrans : Transitive
              (λ x y : Note * Z, note_pos x.1 ≤ note_pos y.1)).
    { intros x y z. lia. }
    apply (Sorted_unique_strong
             (λ x y : Note * Z, note_pos x.1 ≤ note_pos y.1)).
    + intros x1 x2 H1 H2 Hle Hge. rewrite <- Hp in H2.
      apply list_elem_of_lookup in H1 as [i Hi].
      apply list_elem_of_lookup in H2 as [j Hj].
      assert (Hij : i = j).
      { apply (NoDup_lookup _ i j (note_pos x1.1) Hnd);
          unfold positions; rewrite list_lookup_fmap.
        - by rewrite Hi.
        - rewrite Hj. cbn. f_equal. lia. }
      subst j. congruence.
    + apply Sorted_by_pos, sorted_by_pos_sorted.
    + apply Sorted_by_pos, sorted_by_pos_sorted.
    + exact Hp.
Qed.

Lemma chunk_order_irrelevant_witness :
  patternNotes [mkPattern 192 [mkNote 62 0 48]; mkPattern 0 [mkNote 60 0 48]]
  = patternNotes [mkPattern 0 [mkNote 60 0 48]; mkPattern 192 [mkNote 62 0 48]].
Proof.
  destruct (chunk_order_irrelevant
              [mkPattern 192 [mkNote 62 0 48]; mkPattern 0 [mkNote 60 0 48]]
              [mkPattern 0 [mkNote 60 0 48]; mkPattern 192 [mkNote 62 0 48]])
    as (_ & _ & H).
  - apply Permutation_swap.
  - apply H. vm_compute.
    repeat constructor; rewrite ?elem_of_cons, ?elem_of_nil; intros ?;
      intuition discriminate.
Defined.

(** ** Where the notes are placed *)

Section Placement.

Context (table : gmap Z Z).




End Placement.



(** ** The quotients of the script *)

Lemma round_bounds n b K q r m :
  0 < b → 0 < n < 2 ^ 53 → 1 ≤ K →
  n * K = q * b + r → 0 ≤ r < b → 2 ^ 52 ≤ q →
  (m = q ∨ (m = q + 1 ∧ b ≤ 2 * r)) → (b < 2 * r → m = q + 1) →
  (n `div` b) * K ≤ m < (n `div` b + 1) * K
  ∧ (n `mod` b = 0 → m = (n `div` b) * K)
  ∧ (0 < n `mod` b → (n `div` b) * K < m ≤ (n `div` b + 1) * K).
Proof.
  intros Hb Hn HK Hq Hr H52 Hm Hup.
  pose proof (Z.div_mod n b ltac:(lia)) as Hdm.
  pose proof (Z.mod_pos_bound n b Hb) as Hmb.
  set (Q := n `div` b) in *. set (R := n `mod` b) in *.
  assert (HbK : b < 2 * K) by nia.
  assert (Hlo : Q * K ≤ q) by nia.
  assert (Hhi : q < (Q + 1) * K) by nia.
  assert (Hhi' : m < (Q + 1) * K).
  { destruct Hm as [->|[-> Hr2]]; [done|].
    destruct (decide (q + 1 < (Q + 1) * K)) as [|Hge]; [done|]. exfalso.
    assert (q = (Q + 1) * K - 1) by lia.
    assert ((b - R) * K = b - r) by nia.
    assert (1 ≤ b - R) by lia. nia. }
  split; [split; [destruct Hm as [->|[-> _]]; lia|done]|]. split.
  - intros HR. assert (q * b + r = Q * K * b) by nia.
    assert (q = Q * K) by nia. assert (r = 0) by nia.
    destruct Hm as [->|[-> Hr2]]; lia.
  - intros HR. split; [|lia].
    destruct (decide (q = Q * K)) as [Heq|Hne].
    + assert (r = R * K) by nia. rewrite Hup; [lia|]. nia.
    + destruct Hm as [->|[-> _]]; lia.
Qed.

Lemma normal_exponent n b :
  0 < n < 2 ^ 53 → 0 < b →
  Z.log2 n - Z.log2 b - 52 ≤ 0
  ∧ 2 ^ 52 * b ≤ n * (2 * 2 ^ (- (Z.log2 n - Z.log2 b - 52))).
Proof.
  intros Hn Hb.
  pose proof (Z.log2_spec n ltac:(lia)) as Hln.
  pose proof (Z.log2_spec b Hb) as Hlb.
  pose proof (Z.log2_nonneg n) as H0n. pose proof (Z.log2_nonneg b) as H0b.
  assert (Hlt : Z.log2 n < 53) by (apply Z.log2_lt_pow2; lia).
  set (ln := Z.log2 n) in *. set (lb := Z.log2 b) in *.
  split; [lia|].
  replace (- (ln - lb - 52)) with (52 + lb - ln) by lia.
  assert (Hp : 2 ^ ln * 2 ^ (52 + lb - ln) = 2 ^ 52 * 2 ^ lb).
  { rewrite <- !Z.pow_add_r by lia. f_equal. lia. }
  rewrite Z.pow_succ_r in Hlb by lia.
  assert (0 < 2 ^ (52 + lb - ln)) by (apply Z.pow_pos_nonneg; lia).
  assert (0 < 2 ^ lb) by (apply Z.pow_pos_nonneg; lia).
  nia.
Qed.

(** The double quotient of an integer below 2^53 in magnitude by a
    divisor above 0: the mantissa, at a scale of [2 ^ k], lies between the
    quotient and the next integer, and reaches neither unless the
    division is exact. *)
Lemma true_div_shape a b :
  a ≠ 0 → Z.abs a < 2 ^ 53 → 0 < b →
  ∃ k m,
    0 ≤ k ∧ true_div a b = Some (Z.sgn a * m, - k)
    ∧ (Z.abs a `div` b) * 2 ^ k ≤ m < (Z.abs a `div` b + 1) * 2 ^ k
    ∧ (Z.abs a `mod` b = 0 → m = (Z.abs a `div` b) * 2 ^ k)
    ∧ (0 < Z.abs a `mod` b →
       (Z.abs a `div` b) * 2 ^ k < m ≤ (Z.abs a `div` b + 1) * 2 ^ k).
Proof.
  intros Ha Hlt Hb. unfold true_div. set (n := Z.abs a) in *.
  assert (Hn : 0 < n < 2 ^ 53) by lia.
  rewrite bool_decide_eq_false_2 by lia.
  destruct (normal_exponent n b Hn Hb) as [He0 Hnorm].
  set (e0 := Z.log2 n - Z.log2 b - 52) in *. cbn [fst snd].
  set (e := if bool_decide (_ < 2 ^ 52) then e0 - 1 else e0).
  assert (He : e ≤ 0) by (unfold e; case_bool_decide; lia).
  assert (H52 : 2 ^ 52 ≤ (n * 2 ^ (- e)) `div` b).
  { unfold e. case_bool_decide as Hq.
    - apply Z.div_le_lower_bound; [done|].
      replace (- (e0 - 1)) with (Z.succ (- e0)) by lia.
      rewrite Z.pow_succ_r by lia. lia.
    - replace (Z.max 0 (- e0)) with (- e0) in Hq by lia.
      replace (Z.max 0 e0) with 0 in Hq by lia.
      rewrite Z.pow_0_r, Z.mul_1_r in Hq. lia. }
  replace (Z.max 0 (- e)) with (- e) by lia.
  replace (Z.max 0 e) with 0 by lia. rewrite Z.pow_0_r, Z.mul_1_r.
  set (q := (n * 2 ^ (- e)) `div` b) in *.
  set (r := (n * 2 ^ (- e)) `mod` b).
  set (m := if bool_decide (b < 2 * r ∨ b = 2 * r ∧ Z.odd q)
            then q + 1 else q).
  pose proof (Z.div_mod (n * 2 ^ (- e)) b ltac:(lia)) as Hdm.
  pose proof (Z.mod_pos_bound (n * 2 ^ (- e)) b Hb) as Hmb.
  fold q r in Hdm, Hmb.
  assert (HK : 1 ≤ 2 ^ (- e)).
  { pose proof (Z.pow_pos_nonneg 2 (- e) ltac:(lia) ltac:(lia)). lia. }
  assert (Hm : m = q ∨ (m = q + 1 ∧ b ≤ 2 * r)).
  { unfold m. case_bool_decide as Hc; [right|by left].
    split; [done|]. destruct Hc as [?|[? _]]; lia. }
  assert (Hup : b < 2 * r → m = q + 1).
  { intros Hlt2. unfold m. rewrite bool_decide_eq_true_2; [done|by left]. }
  destruct (round_bounds n b (2 ^ (- e)) q r m Hb Hn HK ltac:(lia) Hmb H52
              Hm Hup) as (Hbounds & Hexact & Hinexact).
  exists (- e), m. split; [lia|]. split; [|done].
  rewrite bool_decide_eq_true_2.
  - by rewrite Z.opp_involutive.
  - destruct (decide (e < 0)) as [|He0']; [by left|right].
    assert (e = 0) as -> by lia. change (2 ^ (- 0)) with 1 in *.
    change (2 ^ 0) with 1.
    pose proof (Z.div_le_upper_bound n b n Hb ltac:(nia)).
    change (2 ^ 1024) with (2 ^ 53 * 2 ^ 971).
    assert (0 < 2 ^ 971) by done. nia.
Qed.

Lemma int_of_scale x k : 0 ≤ k → int_of (x, - k) = x `quot` 2 ^ k.
Proof.
  intros Hk. unfold int_of. cbn [fst snd]. rewrite Z.opp_involutive.
  case_bool_decide; [|done]. assert (k = 0) as -> by lia.
  change (2 ^ (- 0)) with 1. change (2 ^ 0) with 1.
  by rewrite Z.mul_1_r, Z.quot_1_r.
Qed.

Lemma ceil_of_scale x k : 0 ≤ k → ceil_of (x, - k) = - ((- x) `div` 2 ^ k).
Proof.
  intros Hk. unfold ceil_of. cbn [fst snd]. rewrite Z.opp_involutive.
  case_bool_decide; [|done]. assert (k = 0) as -> by lia.
  change (2 ^ (- 0)) with 1. change (2 ^ 0) with 1.
  rewrite Z.mul_1_r, Z.div_1_r. lia.
Qed.

Lemma div_between x K Q : 0 < K → Q * K ≤ x < (Q + 1) * K → x `div` K = Q.
Proof.
  intros HK Hx. symmetry. apply (Z.div_unique x K Q (x - Q * K)); lia.
Qed.

(** In the range of exact quotients, truncation and ceiling of the double
    quotient are [int_div] and [ceil_div]. *)
Lemma true_div_exact a b :
  exactRange a → 0 < b →
  int_of <$> true_div a b = Some (int_div a b)
  ∧ ceil_of <$> true_div a b = Some (ceil_div a b).
Proof.
  intros Ha Hb. unfold exactRange, EXACT_LIMIT in Ha.
  unfold int_div, ceil_div.
  destruct (decide (a = 0)) as [->|Hne].
  { split; reflexivity. }
  destruct (true_div_shape a b Hne ltac:(lia) Hb)
    as (k & m & Hk & -> & Hbounds & Hexact & Hinexact).
  cbn [fmap option_fmap option_map].
  rewrite int_of_scale, ceil_of_scale by done.
  assert (HK : 0 < 2 ^ k) by (apply Z.pow_pos_nonneg; lia).
  pose proof (Z.div_mod (Z.abs a) b ltac:(lia)) as Hdm.
  pose proof (Z.mod_pos_bound (Z.abs a) b Hb) as Hmb.
  set (Q := Z.abs a `div` b) in *. set (R := Z.abs a `mod` b) in *.
  assert (HQ : 0 ≤ Q) by (apply Z.div_pos; lia).
  assert (Hm : m `div` 2 ^ k = Q) by (by apply div_between).
  assert (Hc : (- m) `div` 2 ^ k = (- Z.abs a) `div` b).
  { destruct (decide (R = 0)) as [HR|HR].
    - rewrite (Hexact HR).
      rewrite (div_between (- (Q * 2 ^ k)) (2 ^ k) (- Q)) by lia.
      symmetry. apply div_between; lia.
    - specialize (Hinexact ltac:(lia)).
      rewrite (div_between (- m) (2 ^ k) (- (Q + 1))) by lia.
      symmetry. apply div_between; lia. }
  destruct (decide (0 < a)) as [Hpos|Hneg].
  - assert (Habs : Z.abs a = a) by lia.
    rewrite Z.sgn_pos, Z.mul_1_l by done.
    rewrite !Z.quot_div_nonneg by lia.
    rewrite Hm, Hc. unfold Q. by rewrite Habs.
  - assert (Habs : Z.abs a = - a) by lia.
    rewrite Z.sgn_neg by lia.
    replace (-1 * m) with (- m) by lia.
    rewrite Z.quot_opp_l, Z.quot_div_nonneg by lia.
    rewrite Z.opp_involutive, Hm. unfold Q. rewrite Habs.
    replace (a `quot` b) with (- ((- a) `quot` b))
      by (rewrite Z.quot_opp_l by lia; lia).
    by rewrite Z.quot_div_nonneg by lia.
Qed.




Lemma rem_range a b :
  0 < b ≤ LMMS_MEASURE_LENGTH → exactRange (a - int_div a b * b).
Proof.
  unfold int_div, LMMS_MEASURE_LENGTH, exactRange. intros Hb.
  assert (- b < a - a `quot` b * b < b).
  { destruct (decide (0 ≤ a)) as [Ha|Ha].
    - destruct (quot_step a b) as [H _]; lia.
    - destruct (quot_step_neg a b) as [H _]; lia. }
  change EXACT_LIMIT with 9007199254740992. lia.
Qed.

(** X25. For a gap in the range of exact quotients, [getRests] with its
    six quotients taken through a double returns the counts of the exact
    quotients, and raises no error. *)
Theorem getRests_double (gap : Z) :
  exactRange gap → getRestsDouble gap = Some (getRests gap).
Proof.
  intros Hg. unfold getRestsDouble, getRests, int_double.
  destruct (true_div_exact gap LMMS_MEASURE_LENGTH Hg) as [-> _]; [done|].
  cbn [mbind option_bind].
  repeat match goal with
  | |- context [true_div ?a ?b] =>
      destruct (true_div_exact a b) as [-> _];
        [apply rem_range; unfold LMMS_MEASURE_LENGTH; lia|lia|];
      cbn [mbind option_bind]
  end.
  reflexivity.
Qed.

Lemma getRests_double_witness :
  getRestsDouble 9007199254740991
  = Some [("64th", 0); ("32nd", 1); ("16th", 0); ("eighth", 1);
          ("quarter", 2); ("whole", 46912496118442)]
  ∧ getRestsDouble (-50)
    = Some [("64th", 0); ("32nd", 0); ("16th", 0); ("eighth", 0);
            ("quarter", -1); ("whole", 0)].
Proof.
  split.
  - apply (getRests_double 9007199254740991). split; reflexivity.
  - apply (getRests_double (-50)). split; reflexivity.
Defined.

(** X26. Beyond the range the double quotients depart from the exact
    ones.  The quotient of 192 * 2^46 + 191 by 192 is rounded up to
    2^46 + 1, so that the rests of [getRests] stand for one tick more
    than the gap; for a gap of 10^19 ticks the counts of the smaller
    rests are negative, and for a gap of -10^19 ticks twelve rests are
    written; the keys 2^63 and 2^63 + 12 get the same octave;
    and the ceiling for the position 192 * (2^53 + 1) is 2^53. *)
Theorem double_quotient_beyond_range :
  int_double 13510798882111679 192 = Some 70368744177665
  ∧ int_div 13510798882111679 192 = 70368744177664
  ∧ getRestsDouble 13510798882111679 ≫= restTicks
    = Some (13510798882111679 + 1)
  ∧ getRestsDouble (10 ^ 19)
    = Some [("64th", 0); ("32nd", -1); ("16th", 0); ("eighth", -1);
            ("quarter", -10); ("whole", 52083333333333336)]
  ∧ int_div (10 ^ 19) 192 = 52083333333333333
  ∧ length <$> (applyRests <$> getRestsDouble (- 10 ^ 19)) = Some 12%nat
  ∧ int_double (2 ^ 63) 12 = Some 768614336404564608
  ∧ int_double (2 ^ 63 + 12) 12 = Some 768614336404564608
  ∧ int_div (2 ^ 63) 12 = 768614336404564650
  ∧ ceil_double (192 * (2 ^ 53 + 1)) 192 = Some (2 ^ 53)
  ∧ ceil_div (192 * (2 ^ 53 + 1)) 192 = 2 ^ 53 + 1.
Proof. split_and!; vm_compute; reflexivity. Qed.
